(** * Ambient shadow tessellation (libs/hwui/AmbientShadow.cpp)

    A shallow embedding of [AmbientShadow::createAmbientShadow] and of its
    three helpers, [calculateRayDirections], [calculateIntersection] and
    [calculateNormal].

    Conventions of the embedding.
    - The C++ [float] and [double] types and their operations are the fields
      of the class [Arith].  Every function below is written once, over an
      arbitrary [Arith]; two instances are given: IEEE-754 binary32/binary64
      ([binary32_arith], built on the Standard Library's [SpecFloat], which
      evaluates) and exact real arithmetic ([real_arith], Stdlib's [R]).
    - [int] values are integers of [Z].  Every [int] the code computes is
      bounded by [3 * SHADOW_RAY_COUNT] or by [vertexCount], so no signed
      overflow is modelled.
    - A pointer used as an array ([const Vector3* vertices], [Vector2* dir],
      [const float* rayDist]) is a function from the index to the cell.
    - A local that is declared without initialiser and handed to a callee by
      reference starts with an indeterminate value; that value is an explicit
      argument of the embedding.
    - The output [VertexBuffer] is the list of its cells; a cell the code
      allocated but never stored to is [None]. *)

From Stdlib Require Import ZArith List Bool Lia Reals Lra SpecFloat.
From stdpp Require Import base tactics option list list_numbers functions numbers.

Local Open Scope Z_scope.

(** ** Arithmetic of the C++ scalar types *)

Class Arith := {
  float : Type;
  double : Type;
  (** conversions of the usual arithmetic conversions and of assignments *)
  int_to_float : Z -> float;
  int_to_double : Z -> double;
  float_to_double : float -> double;
  double_to_float : double -> float;
  (** [float] operators *)
  fadd : float -> float -> float;
  fsub : float -> float -> float;
  fmul : float -> float -> float;
  fdiv : float -> float -> float;
  fneg : float -> float;
  flt : float -> float -> bool;
  fle : float -> float -> bool;
  fne : float -> float -> bool;
  (** [double] operators *)
  dmul : double -> double -> double;
  ddiv : double -> double -> double;
  (** <math.h> *)
  M_PI : double;
  sqrtf : float -> float;
  sinf : float -> float;
  cosf : float -> float;
}.

(** The one law of the comparisons that the validation of the inputs relies
    on: [a > b] excludes [a <= b]. *)
Class ArithLaws (A : Arith) : Prop := {
  fle_flt_false : forall a b : float, flt b a = true -> fle a b = false
}.

Declare Scope flt_scope.
Delimit Scope flt_scope with flt.
Notation "a + b" := (fadd a b) : flt_scope.
Notation "a - b" := (fsub a b) : flt_scope.
Notation "a * b" := (fmul a b) : flt_scope.
Notation "a / b" := (fdiv a b) : flt_scope.
Notation "- a" := (fneg a) : flt_scope.
Notation "a <? b" := (flt a b) : flt_scope.
Notation "a >? b" := (flt b a) : flt_scope.
Notation "a <=? b" := (fle a b) : flt_scope.
Notation "a !=? b" := (fne a b) (at level 70) : flt_scope.
Notation "# n" := (int_to_float n) (at level 9, format "# n") : flt_scope.

(** ** Data model *)

Section Model.
Context {A : Arith}.

(** Vector.h: [struct Vector2 { float x; float y; }]. *)
Record Vector2 := mkVector2 { v2_x : float; v2_y : float }.

(** Vector.h: [class Vector3 { float x; float y; float z; }]. *)
Record Vector3 := mkVector3 { v3_x : float; v3_y : float; v3_z : float }.

(** Vertex.h: [struct AlphaVertex { float x, y; float alpha; }]. *)
Record AlphaVertex := mkAlphaVertex { av_x : float; av_y : float; av_alpha : float }.

(** VertexBuffer.h: the topology tag [createAmbientShadow] returns. *)
Inductive VertexBufferMode :=
  | kVertexBufferMode_Standard
  | kVertexBufferMode_OnePolyRingShadow
  | kVertexBufferMode_TwoPolyRingShadow.

(** The three by-reference outputs of [calculateIntersection]. *)
Record Hit := mkHit {
  outEdgeIndex : Z;
  outEdgeFraction : float;
  outRayDist : float
}.

(** ** calculateIntersection *)

Section Intersection.
Variable vertices : Z -> Vector3.
Variable start : Vector3.
Variable dir : Vector2.

(** [div] of the edge from [vertices[p1]] to [vertices[p2]]. *)
Definition edge_div (p1 p2 : Z) : float :=
  let dirX := v2_x dir in
  let dirY := v2_y dir in
  let p1x := v3_x (vertices p1) in
  let p1y := v3_y (vertices p1) in
  let p2x := v3_x (vertices p2) in
  let p2y := v3_y (vertices p2) in
  (dirX * (p1y - p2y) + dirY * p2x - dirY * p1x)%flt.

(** [t]: the position of the hit on the edge. *)
Definition edge_t (p1 p2 : Z) : float :=
  let startX := v3_x start in
  let startY := v3_y start in
  let dirX := v2_x dir in
  let dirY := v2_y dir in
  let p1x := v3_x (vertices p1) in
  let p1y := v3_y (vertices p1) in
  ((dirX * (p1y - startY) + dirY * startX - dirY * p1x) / edge_div p1 p2)%flt.

(** [t2]: the distance of the hit along the ray. *)
Definition edge_t2 (p1 p2 : Z) : float :=
  let startX := v3_x start in
  let startY := v3_y start in
  let p1x := v3_x (vertices p1) in
  let p1y := v3_y (vertices p1) in
  let p2x := v3_x (vertices p2) in
  let p2y := v3_y (vertices p2) in
  ((p1x * (startY - p2y) + p2x * (p1y - startY) + startX * (p2y - p1y))
   / edge_div p1 p2)%flt.

(** The three nested tests of the loop body. *)
Definition edge_accepted (p1 p2 : Z) : bool :=
  if (edge_div p1 p2 !=? #0)%flt then
    let t := edge_t p1 p2 in
    if (t >? #0)%flt && (t <=? #1)%flt then
      let t2 := edge_t2 p1 p2 in
      if (t2 >? #0)%flt then true else false
    else false
  else false.

(** The loop [for (int p2 = 0; p2 < vertexCount; p2++)]: [todo] iterations
    are left, the current edge is [p1 -> p2], [out] holds the referenced
    outputs. *)
Fixpoint calculateIntersection_loop (todo : nat) (p1 p2 : Z) (out : Hit) : Hit :=
  match todo with
  | O => out
  | S todo' =>
      if edge_accepted p1 p2 then
        {| outEdgeIndex := p1;
           outRayDist := edge_t2 p1 p2;
           outEdgeFraction := edge_t p1 p2 |}
      else calculateIntersection_loop todo' p2 (p2 + 1) out
  end.

Definition calculateIntersection (vertexCount : Z) (out : Hit) : Hit :=
  let p1 := vertexCount - 1 in
  calculateIntersection_loop (Z.to_nat vertexCount) p1 0 out.

End Intersection.

(** ** Counted loops

    [for (int i = 0; i < n; i++) body], threading the state the body
    updates; [forM] is the same loop for a body that may fail. *)

Definition for_ {S : Type} (n : Z) (body : Z -> S -> S) (s : S) : S :=
  foldl (fun s i => body i s) s (seqZ 0 n).

Definition forM {S : Type} (n : Z) (body : Z -> S -> option S) (s : S) : option S :=
  foldl (fun os i => os ≫= body i) (Some s) (seqZ 0 n).

(** ** Vector2 (Vector.h) *)

(** Modelled from the spec: [Vector2::operator*(float)], [operator+] and
    [operator-] of Vector.h, which is not among the sources; the spec forms
    the intersection point as origin plus direction times distance and the
    chord as the difference of two points, componentwise. *)
Definition v2_scale (v : Vector2) (s : float) : Vector2 :=
  {| v2_x := (v2_x v * s)%flt; v2_y := (v2_y v * s)%flt |}.

Definition v2_add (a b : Vector2) : Vector2 :=
  {| v2_x := (v2_x a + v2_x b)%flt; v2_y := (v2_y a + v2_y b)%flt |}.

Definition v2_sub (a b : Vector2) : Vector2 :=
  {| v2_x := (v2_x a - v2_x b)%flt; v2_y := (v2_y a - v2_y b)%flt |}.

(** Modelled from the spec: [Vector2::length] and [Vector2::normalize] of
    Vector.h, which is not among the sources; the spec speaks of the length
    of the chord and of normalizing it: the Euclidean length, and the
    vector scaled by the inverse of its length. *)
Definition v2_length (v : Vector2) : float :=
  sqrtf (v2_x v * v2_x v + v2_y v * v2_y v)%flt.

Definition v2_normalize (v : Vector2) : Vector2 :=
  let s := (#1 / v2_length v)%flt in
  {| v2_x := (v2_x v * s)%flt; v2_y := (v2_y v * s)%flt |}.

(** ** calculateRayDirections *)

Definition deltaAngle (rays : Z) : float :=
  double_to_float (ddiv (dmul (int_to_double 2) M_PI) (int_to_double rays)).

Definition calculateRayDirections (rays : Z) (dir : Z -> Vector2) : Z -> Vector2 :=
  let deltaAngle := deltaAngle rays in
  for_ rays
    (fun i dir =>
       <[ i := {| v2_x := sinf (deltaAngle * #i)%flt;
                  v2_y := cosf (deltaAngle * #i)%flt |} ]> dir)
    dir.

(** ** calculateNormal *)

Definition calculateNormal (rays currentRayIndex : Z) (dir : Z -> Vector2)
    (rayDist : Z -> float) (normal : Vector2) : Vector2 :=
  let preIndex := Z.rem (currentRayIndex - 1 + rays) rays in
  let postIndex := Z.rem (currentRayIndex + 1) rays in
  let p1 := v2_scale (dir preIndex) (rayDist preIndex) in
  let p2 := v2_scale (dir postIndex) (rayDist postIndex) in
  let delta := v2_sub p2 p1 in
  if (v2_length delta !=? #0)%flt then
    let delta := v2_normalize delta in
    {| v2_x := (- v2_y delta)%flt; v2_y := v2_x delta |}
  else normal.

(** ** createAmbientShadow *)

(** The vertex buffer: its cells in order; [None] is a cell that was
    allocated and not stored to. *)
Definition VertexBuffer := list (option AlphaVertex).

(** Modelled from the spec: [VertexBuffer::alloc<AlphaVertex>(n)] of
    VertexBuffer.h, which is not among the sources; it gives the buffer [n]
    fresh cells and returns the pointer to the first. *)
Definition alloc (n : Z) : VertexBuffer := replicate (Z.to_nat n) None.

(** [shadowVertices[k] = v]; storing outside the allocation is undefined
    behaviour, [None] here. *)
Definition store (k : Z) (v : AlphaVertex) (buf : list (option AlphaVertex))
    : option VertexBuffer :=
  if bool_decide (0 <= k < Z.of_nat (length buf))
  then Some (<[ Z.to_nat k := Some v ]> buf)
  else None.

(** The storage that [createAmbientShadow] reads or hands out before
    writing it: the array behind [dir], the stack arrays [rayDist] and
    [rayHeight], and, for the i-th round of the first loop, the locals
    [edgeIndex], [edgeFraction] and [rayDistance]. *)
Record Indeterminate := mkIndeterminate {
  ind_dir : Z -> Vector2;
  ind_rayDist : Z -> float;
  ind_rayHeight : Z -> float;
  ind_hit : Z -> Hit
}.

(** [1.0 / (1 + height * heightFactor)], assigned to a [float]: the sum is a
    [float], the quotient a [double]. *)
Definition opacity (height heightFactor : float) : float :=
  double_to_float
    (ddiv (int_to_double 1) (float_to_double (#1 + height * heightFactor)%flt)).

Section CreateAmbientShadow.
(** ShadowTessellator.h, not among the sources, defines both constants. *)
Variable SHADOW_RAY_COUNT : Z.
Variable SHADOW_VERTEX_COUNT : Z.

Variable ind : Indeterminate.
Variable vertices : Z -> Vector3.
Variable vertexCount : Z.
Variable centroid3d : Vector3.
Variable heightFactor geomFactor : float.

Definition invalid_input : bool :=
  let rays := SHADOW_RAY_COUNT in
  (vertexCount <? 3) || (heightFactor <=? #0)%flt || (rays <=? 0)
  || (geomFactor <=? #0)%flt.

Definition dirs : Z -> Vector2 :=
  calculateRayDirections SHADOW_RAY_COUNT (ind_dir ind).

(** One round of the loop that intersects ray [i] with the polygon. *)
Definition intersect_ray (i : Z) (arrays : (Z -> float) * (Z -> float))
    : (Z -> float) * (Z -> float) :=
  let '(rayDist, rayHeight) := arrays in
  let hit := calculateIntersection vertices centroid3d (dirs i) vertexCount (ind_hit ind i) in
  let edgeIndex := outEdgeIndex hit in
  let edgeFraction := outEdgeFraction hit in
  let rayDistance := outRayDist hit in
  let rayDist := <[ i := rayDistance ]> rayDist in
  let edgeIndex :=
    if (edgeIndex <? 0) || (edgeIndex >=? vertexCount) then 0 else edgeIndex in
  let h1 := v3_z (vertices edgeIndex) in
  let h2 := v3_z (vertices (Z.rem (edgeIndex + 1) vertexCount)) in
  (rayDist, <[ i := (h1 + edgeFraction * (h2 - h1))%flt ]> rayHeight).

Definition ray_arrays : (Z -> float) * (Z -> float) :=
  for_ SHADOW_RAY_COUNT intersect_ray (ind_rayDist ind, ind_rayHeight ind).

Definition rayDist : Z -> float := fst ray_arrays.
Definition rayHeight : Z -> float := snd ray_arrays.

Definition centroid2d : Vector2 :=
  {| v2_x := v3_x centroid3d; v2_y := v3_y centroid3d |}.

(** One round of the loop that stores the outer and the inner ring. *)
Definition store_rings (rayIndex : Z) (shadowVertices : VertexBuffer)
    : option VertexBuffer :=
  let rays := SHADOW_RAY_COUNT in
  let normal := {| v2_x := (#1)%flt; v2_y := (#0)%flt |} in
  let normal := calculateNormal rays rayIndex dirs rayDist normal in
  let intersection :=
    v2_add (v2_scale (dirs rayIndex) (rayDist rayIndex)) centroid2d in
  let expansionDist := (rayHeight rayIndex * heightFactor * geomFactor)%flt in
  shadowVertices ←
    store rayIndex
      {| av_x := (v2_x intersection + v2_x normal * expansionDist)%flt;
         av_y := (v2_y intersection + v2_y normal * expansionDist)%flt;
         av_alpha := (#0)%flt |}
      shadowVertices;
  let opacity := opacity (rayHeight rayIndex) heightFactor in
  store (rays + rayIndex)
    {| av_x := v2_x intersection; av_y := v2_y intersection; av_alpha := opacity |}
    shadowVertices.

Definition centroidXYA : AlphaVertex :=
  let centroidAlpha := opacity (v3_z centroid3d) heightFactor in
  {| av_x := v2_x centroid2d; av_y := v2_y centroid2d; av_alpha := centroidAlpha |}.

Definition createAmbientShadow (isCasterOpaque : bool)
    (shadowVertexBuffer : VertexBuffer) : option (VertexBufferMode * VertexBuffer) :=
  let rays := SHADOW_RAY_COUNT in
  let mode := kVertexBufferMode_OnePolyRingShadow in
  if invalid_input then Some (mode, shadowVertexBuffer)
  else
    let shadowVertices := alloc SHADOW_VERTEX_COUNT in
    shadowVertices ← forM rays store_rings shadowVertices;
    if negb isCasterOpaque then
      let mode := kVertexBufferMode_TwoPolyRingShadow in
      shadowVertices ←
        forM rays (fun rayIndex => store (2 * rays + rayIndex) centroidXYA)
          shadowVertices;
      Some (mode, shadowVertices)
    else Some (mode, shadowVertices).

(** *** Names for the quantities of one ray

    The values the two loops compute for ray [i], named for the statements
    below. *)

(** The referenced outputs after the call of [calculateIntersection]. *)
Definition ray_hit (i : Z) : Hit :=
  calculateIntersection vertices centroid3d (dirs i) vertexCount (ind_hit ind i).

(** The edge index after the range check. *)
Definition ray_edge (i : Z) : Z :=
  let edgeIndex := outEdgeIndex (ray_hit i) in
  if (edgeIndex <? 0) || (edgeIndex >=? vertexCount) then 0 else edgeIndex.

(** The value stored to [rayHeight[i]]. *)
Definition interpolated_height (i : Z) : float :=
  let h1 := v3_z (vertices (ray_edge i)) in
  let h2 := v3_z (vertices (Z.rem (ray_edge i + 1) vertexCount)) in
  (h1 + outEdgeFraction (ray_hit i) * (h2 - h1))%flt.

(** [normal] after the call of [calculateNormal]. *)
Definition normal_at (i : Z) : Vector2 :=
  calculateNormal SHADOW_RAY_COUNT i dirs rayDist {| v2_x := (#1)%flt; v2_y := (#0)%flt |}.

(** [intersection]. *)
Definition intersection_at (i : Z) : Vector2 :=
  v2_add (v2_scale (dirs i) (rayDist i)) centroid2d.

(** The vertex stored to [shadowVertices[i]]. *)
Definition outer_vertex (i : Z) : AlphaVertex :=
  let expansionDist := (rayHeight i * heightFactor * geomFactor)%flt in
  {| av_x := (v2_x (intersection_at i) + v2_x (normal_at i) * expansionDist)%flt;
     av_y := (v2_y (intersection_at i) + v2_y (normal_at i) * expansionDist)%flt;
     av_alpha := (#0)%flt |}.

(** The vertex stored to [shadowVertices[rays + i]]. *)
Definition inner_vertex (i : Z) : AlphaVertex :=
  {| av_x := v2_x (intersection_at i);
     av_y := v2_y (intersection_at i);
     av_alpha := opacity (rayHeight i) heightFactor |}.

End CreateAmbientShadow.

(** [shadowVertices[k]] read back: the vertex stored there, if any. *)
Definition shadowVertex (buf : list (option AlphaVertex)) (k : Z)
    : option AlphaVertex :=
  if bool_decide (0 <= k) then
    match buf !! Z.to_nat k with
    | Some (Some v) => Some v
    | _ => None
    end
  else None.

(** The number of cells that hold a vertex. *)
Definition populated (buf : list (option AlphaVertex)) : Z := Z.of_nat (length (omap (fun cell => cell) buf)).

End Model.

(** ** IEEE-754 arithmetic: [float] is binary32, [double] is binary64

    The operations are those of [SpecFloat] (round to nearest, ties to
    even) at precision 24 / exponent bound 128 and precision 53 / exponent
    bound 1024.  [sinf] and [cosf] belong to the C library and are
    arguments of the instance. *)

Definition b32_of_Z (z : Z) : spec_float := binary_normalize 24 128 z 0 false.
Definition b64_of_Z (z : Z) : spec_float := binary_normalize 53 1024 z 0 false.

(** Every binary32 number is a binary64 number; the mantissa is realigned
    to the binary64 exponent. *)
Definition b32_to_b64 (x : spec_float) : spec_float :=
  match x with
  | S754_finite s m e => binary_round 53 1024 s m e
  | _ => x
  end.

(** Assignment of a [double] to a [float] rounds to binary32. *)
Definition b64_to_b32 (x : spec_float) : spec_float :=
  match x with
  | S754_finite s m e => binary_round 24 128 s m e
  | _ => x
  end.

(** <math.h>: [M_PI] is the binary64 number nearest to pi,
    0x400921FB54442D18. *)
Definition b64_M_PI : spec_float := S754_finite false 7074237752028440 (-51).

Definition binary32_arith (libm_sinf libm_cosf : spec_float -> spec_float) : Arith :=
  {| float := spec_float;
     double := spec_float;
     int_to_float := b32_of_Z;
     int_to_double := b64_of_Z;
     float_to_double := b32_to_b64;
     double_to_float := b64_to_b32;
     fadd := SFadd 24 128;
     fsub := SFsub 24 128;
     fmul := SFmul 24 128;
     fdiv := SFdiv 24 128;
     fneg := SFopp;
     flt := SFltb;
     fle := SFleb;
     fne := fun a b => negb (SFeqb a b);
     dmul := SFmul 53 1024;
     ddiv := SFdiv 53 1024;
     M_PI := b64_M_PI;
     sqrtf := SFsqrt 24 128;
     sinf := libm_sinf;
     cosf := libm_cosf |}.

(** ** Exact arithmetic: [float] and [double] are the real numbers *)

Definition Rltb (a b : R) : bool := if Rlt_dec a b then true else false.
Definition Rleb (a b : R) : bool := if Rle_dec a b then true else false.
Definition Rneb (a b : R) : bool := if Req_dec_T a b then false else true.

Definition real_arith : Arith :=
  {| float := R;
     double := R;
     int_to_float := IZR;
     int_to_double := IZR;
     float_to_double := fun x => x;
     double_to_float := fun x => x;
     fadd := Rplus;
     fsub := Rminus;
     fmul := Rmult;
     fdiv := Rdiv;
     fneg := Ropp;
     flt := Rltb;
     fle := Rleb;
     fne := Rneb;
     dmul := Rmult;
     ddiv := Rdiv;
     M_PI := PI;
     sqrtf := sqrt;
     sinf := sin;
     cosf := cos |}.

(** ** Vocabulary of the statements *)

(** The loop of [calculateIntersection] visits the edges in the order
    (vertexCount-1 -> 0), (0 -> 1), ..., (vertexCount-2 -> vertexCount-1):
    the edge visited when the loop variable is [p2] starts at
    [edge_from vertexCount p2]. *)
Definition edge_from (vertexCount p2 : Z) : Z :=
  if p2 =? 0 then vertexCount - 1 else p2 - 1.

(** The start of the edge the loop visits [j] rounds after it visited
    [p1 -> p2]. *)
Definition later_from (p1 p2 : Z) (j : nat) : Z :=
  match j with O => p1 | Datatypes.S _ => p2 + Z.of_nat j - 1 end.

(** What [calculateIntersection] reports for the edge [p1 -> p2]. *)
Definition hit_of {A : Arith} (vertices : Z -> Vector3) (start : Vector3)
    (dir : Vector2) (p1 p2 : Z) : Hit :=
  {| outEdgeIndex := p1;
     outEdgeFraction := edge_t vertices start dir p1 p2;
     outRayDist := edge_t2 vertices start dir p1 p2 |}.

(** The reading of the allocation as depending on the opacity: every run
    on valid inputs returns a buffer of [2 * rays] cells for an opaque and
    of [3 * rays] cells for a non-opaque caster, [rays] and [capacity]
    being the values of SHADOW_RAY_COUNT and SHADOW_VERTEX_COUNT. *)
Definition allocates_by_opacity (rays capacity : Z) : Prop :=
  forall (A : Arith) (L : ArithLaws A) (ind : Indeterminate)
         (vertices : Z -> Vector3) (vertexCount : Z) (centroid3d : Vector3)
         (heightFactor geomFactor : float) (isCasterOpaque : bool)
         (buf0 : VertexBuffer),
    3 <= vertexCount ->
    (heightFactor >? #0)%flt = true ->
    0 < rays ->
    (geomFactor >? #0)%flt = true ->
    exists (mode : VertexBufferMode) (buf : VertexBuffer),
      createAmbientShadow rays capacity ind vertices vertexCount centroid3d
        heightFactor geomFactor isCasterOpaque buf0 = Some (mode, buf)
      /\ Z.of_nat (length buf) = (if isCasterOpaque then 2 else 3) * rays.

(** An array given by its cells. *)
Definition array_of {T : Type} (default : T) (cells : list T) (i : Z) : T :=
  nth (Z.to_nat i) cells default.

(** ** Sample inputs (binary32) *)

Module Sample.

(** [sinf] and [cosf] at the single argument that a run with one ray
    passes, 0: [sinf(0) = 0], [cosf(0) = 1]. *)
Definition sinf_at_0 (x : spec_float) : spec_float := x.
Definition cosf_at_0 (x : spec_float) : spec_float := b32_of_Z 1.

Definition arith : Arith := binary32_arith sinf_at_0 cosf_at_0.

Definition f32 (z : Z) : @float arith := b32_of_Z z.
Definition vec3 (x y z : Z) : @Vector3 arith := mkVector3 (f32 x) (f32 y) (f32 z).
Definition vec2 (x y : Z) : @Vector2 arith := mkVector2 (f32 x) (f32 y).

(** The square with corners (-1,-1), (1,-1), (1,1), (-1,1), whose corners
    are at heights 0, 4, 8 and 12. *)
Definition square : Z -> @Vector3 arith :=
  array_of (vec3 0 0 0) [vec3 (-1) (-1) 0; vec3 1 (-1) 4; vec3 1 1 8; vec3 (-1) 1 12].

(** The ray that points up: direction (0, 1). *)
Definition up : @Vector2 arith := vec2 0 1.

(** Values the by-reference outputs may hold before a call. *)
Definition stale : @Hit arith := mkHit 1 (f32 3) (f32 7).

(** Indeterminate storage: the arrays hold zeros, the three locals hold
    [stale] at the start of every round. *)
Definition ind : @Indeterminate arith :=
  {| ind_dir := fun _ => vec2 0 0;
     ind_rayDist := fun _ => f32 0;
     ind_rayHeight := fun _ => f32 0;
     ind_hit := fun _ => stale |}.

(** A centroid inside the square, at height 2, and one outside of it. *)
Definition centre : @Vector3 arith := vec3 0 0 2.
Definition outside : @Vector3 arith := vec3 5 0 2.

End Sample.

(** ** Further sample inputs *)

Module MoreSamples.

(** Indeterminate storage that differs from [Sample.ind] in every part. *)
Definition other_ind : @Indeterminate Sample.arith :=
  {| ind_dir := fun _ => Sample.vec2 3 4;
     ind_rayDist := fun _ => Sample.f32 5;
     ind_rayHeight := fun _ => Sample.f32 6;
     ind_hit := fun _ => mkHit (A := Sample.arith) 2 (Sample.f32 9) (Sample.f32 8) |}.

(** Indeterminate storage whose edge index, 7, is no index of the square. *)
Definition wild_ind : @Indeterminate Sample.arith :=
  {| ind_dir := fun _ => Sample.vec2 0 0;
     ind_rayDist := fun _ => Sample.f32 0;
     ind_rayHeight := fun _ => Sample.f32 0;
     ind_hit := fun _ => mkHit (A := Sample.arith) 7 (Sample.f32 3) (Sample.f32 7) |}.

(** The square of [Sample], its centre and the ray that points up, in exact
    arithmetic. *)
Definition rvec3 (x y z : R) : @Vector3 real_arith := mkVector3 (A := real_arith) x y z.
Definition rvec2 (x y : R) : @Vector2 real_arith := mkVector2 (A := real_arith) x y.

Definition rsquare : Z -> @Vector3 real_arith :=
  array_of (rvec3 0 0 0)
    [rvec3 (-1) (-1) 0; rvec3 1 (-1) 4; rvec3 1 1 8; rvec3 (-1) 1 12].

Definition rcentre : @Vector3 real_arith := rvec3 0 0 2.
Definition rup : @Vector2 real_arith := rvec2 0 1.

Definition rstale : @Hit real_arith := mkHit (A := real_arith) 1 3%R 7%R.

Definition rind : @Indeterminate real_arith :=
  {| ind_dir := fun _ => rvec2 0 0;
     ind_rayDist := fun _ => 0%R;
     ind_rayHeight := fun _ => 0%R;
     ind_hit := fun _ => rstale |}.

(** Four rays that point up, right, down and left. *)
Definition four_rays : Z -> @Vector2 real_arith :=
  array_of (rvec2 0 0) [rvec2 0 1; rvec2 1 0; rvec2 0 (-1); rvec2 (-1) 0].

End MoreSamples.

(** ** The value of a binary32 number *)

(** The real number that a [spec_float] stands for: [(-1)^s * m * 2^e] for a
    finite number and 0 for the two zeros; 0 as well for the infinities and
    for NaN, which stand for no number. *)
Definition B2R (x : spec_float) : R :=
  match x with
  | S754_finite s m e =>
      let z := if s then Z.neg m else Z.pos m in
      if 0 <=? e then IZR (z * 2 ^ e) else (IZR z / IZR (2 ^ (- e)))%R
  | _ => 0%R
  end.

(** ** The claims in their own words *)

(** The determinant of the system [start + v * dir = p1 + t * (p2 - p1)] in
    the unknowns [t] and [v], for the edge from [vertices[p1]] to
    [vertices[p2]]. *)
Definition determinant (vertices : Z -> @Vector3 real_arith) (dir : @Vector2 real_arith)
    (p1 p2 : Z) : R :=
  (v2_x dir * (v3_y (vertices p2) - v3_y (vertices p1))
   - v2_y dir * (v3_x (vertices p2) - v3_x (vertices p1)))%R.

(** [t] and [v] solve that system: the point at [t] along the edge is the
    point at distance [v] along the ray. *)
Definition solves_system (vertices : Z -> @Vector3 real_arith)
    (start : @Vector3 real_arith) (dir : @Vector2 real_arith) (p1 p2 : Z) (t v : R) : Prop :=
  (v3_x start + v * v2_x dir
   = v3_x (vertices p1) + t * (v3_x (vertices p2) - v3_x (vertices p1)))%R
  /\ (v3_y start + v * v2_y dir
      = v3_y (vertices p1) + t * (v3_y (vertices p2) - v3_y (vertices p1)))%R.

(** The ray meets the edge: the system is non-degenerate and its solution
    has [t] in (0, 1] and [v > 0]. *)
Definition meets_edge (vertices : Z -> @Vector3 real_arith)
    (start : @Vector3 real_arith) (dir : @Vector2 real_arith) (p1 p2 : Z) (t v : R) : Prop :=
  determinant vertices dir p1 p2 <> 0%R
  /\ solves_system vertices start dir p1 p2 t v
  /\ (0 < t <= 1)%R
  /\ (0 < v)%R.

(** Lines 197-204 in the arithmetic of the code: [t] and [t2] are the two
    quotients computed for the edge [p1 -> p2], and [div != 0], [t > 0],
    [t <= 1] and [t2 > 0] hold of the computed values. *)
Definition passes_tests {A : Arith} (vertices : Z -> Vector3) (start : Vector3)
    (dir : Vector2) (p1 p2 : Z) (t t2 : float) : Prop :=
  let startX := v3_x start in
  let startY := v3_y start in
  let dirX := v2_x dir in
  let dirY := v2_y dir in
  let p1x := v3_x (vertices p1) in
  let p1y := v3_y (vertices p1) in
  let p2x := v3_x (vertices p2) in
  let p2y := v3_y (vertices p2) in
  let div := (dirX * (p1y - p2y) + dirY * p2x - dirY * p1x)%flt in
  t = ((dirX * (p1y - startY) + dirY * startX - dirY * p1x) / div)%flt
  /\ t2 = ((p1x * (startY - p2y) + p2x * (p1y - startY) + startX * (p2y - p1y)) / div)%flt
  /\ (div !=? #0)%flt = true
  /\ (t >? #0)%flt = true
  /\ (t <=? #1)%flt = true
  /\ (t2 >? #0)%flt = true.

(** Lines 236-242 over the two coordinates [(cx, cy)] of the chord, with the
    length and the normalization that [v2_length] and [v2_normalize] model:
    the chord scaled by the inverse of its length [sqrtf (cx * cx + cy * cy)]
    and turned by [(x, y) -> (-y, x)]; [fallback] when the length, as
    computed, is zero. *)
Definition rotated_unit_chord {A : Arith} (cx cy : float) (fallback : Vector2) : Vector2 :=
  let len := sqrtf (cx * cx + cy * cy)%flt in
  if (len !=? #0)%flt
  then {| v2_x := (- (cy * (#1 / len)))%flt; v2_y := (cx * (#1 / len))%flt |}
  else fallback.

(** ** Inputs on which binary32 rounds *)

Module Rounding.

(** A binary32 vector and point as the vector and point of the same
    coordinates in exact arithmetic. *)
Definition exact2 (v : @Vector2 Sample.arith) : @Vector2 real_arith :=
  mkVector2 (A := real_arith) (B2R (v2_x v)) (B2R (v2_y v)).

Definition exact3 (v : @Vector3 Sample.arith) : @Vector3 real_arith :=
  mkVector3 (A := real_arith) (B2R (v3_x v)) (B2R (v3_y v)) (B2R (v3_z v)).

(** 0.70710677, the binary32 number nearest to the square root of 1/2, and
    its double, 1.41421354. *)
Definition half_sqrt2 : @float Sample.arith := S754_finite false 11863283 (-24).
Definition sqrt2 : @float Sample.arith := S754_finite false 11863283 (-23).

(** The quadrilateral (1.41421354, 1.41421354), (1, -1), (-1, -1), (-1, 1),
    at heights 0, 4, 8 and 12. *)
Definition quad : Z -> @Vector3 Sample.arith :=
  array_of (Sample.vec3 0 0 0)
    [mkVector3 (A := Sample.arith) sqrt2 sqrt2 (Sample.f32 0);
     Sample.vec3 1 (-1) 4; Sample.vec3 (-1) (-1) 8; Sample.vec3 (-1) 1 12].

(** The ray from the origin along the diagonal, which passes through the
    first corner of [quad] at distance 2. *)
Definition origin : @Vector3 Sample.arith := Sample.vec3 0 0 0.
Definition diagonal : @Vector2 Sample.arith := mkVector2 (A := Sample.arith) half_sqrt2 half_sqrt2.

(** Four rays that point up, right, down and left, and the ray distance
    2^-100 for each of them. *)
Definition four_rays : Z -> @Vector2 Sample.arith :=
  array_of (Sample.vec2 0 0)
    [Sample.vec2 0 1; Sample.vec2 1 0; Sample.vec2 0 (-1); Sample.vec2 (-1) 0].

Definition tiny : @float Sample.arith := S754_finite false 8388608 (-123).

(** A centroid at (2^25, 2^25), where consecutive binary32 numbers are 4
    apart. *)
Definition far : @Vector2 Sample.arith := Sample.vec2 33554432 33554432.

End Rounding.

(** ** A run with four rays (binary32) *)

Module Quadrants.

(** The arguments that a run with four rays passes to [sinf] and [cosf] are
    the binary32 products of (float)(2 * M_PI / 4) = 1.57079637 with 0, 1, 2
    and 3: 0, 1.57079637, 3.14159274 and 4.71238899.  [sinf] and [cosf] at
    these arguments return the binary32 numbers nearest to the sine and the
    cosine: (0, 1), (1, -4.37113883e-08), (-8.74227766e-08, -1) and
    (-1, 1.19248806e-08). *)
Definition sinf_quadrants (x : spec_float) : spec_float :=
  match x with
  | S754_finite false 13176795 (-23) => b32_of_Z 1
  | S754_finite false 13176795 (-22) => S754_finite true 12303662 (-47)
  | S754_finite false 9882596 (-21) => b32_of_Z (-1)
  | _ => x
  end.

Definition cosf_quadrants (x : spec_float) : spec_float :=
  match x with
  | S754_finite false 13176795 (-23) => S754_finite true 12303662 (-48)
  | S754_finite false 13176795 (-22) => b32_of_Z (-1)
  | S754_finite false 9882596 (-21) => S754_finite false 13426222 (-50)
  | _ => b32_of_Z 1
  end.

Definition arith : Arith := binary32_arith sinf_quadrants cosf_quadrants.

Definition f32 (z : Z) : @float arith := b32_of_Z z.
Definition vec3 (x y z : Z) : @Vector3 arith := mkVector3 (f32 x) (f32 y) (f32 z).
Definition vec2 (x y : Z) : @Vector2 arith := mkVector2 (f32 x) (f32 y).



Definition ind : @Indeterminate arith :=
  {| ind_dir := fun _ => vec2 0 0;
     ind_rayDist := fun _ => f32 0;
     ind_rayHeight := fun _ => f32 0;
     ind_hit := fun _ => mkHit (A := arith) 1 (f32 3) (f32 7) |}.

End Quadrants.

(** ** Proof steps *)

(** Closes a goal [f a' b' = r] with [H : f a b = r] when linear
    arithmetic identifies the arguments. *)
Ltac same_edge H :=
  match type of H with
  | ?f ?a ?b = ?r =>
      match goal with
      | |- ?f ?a' ?b' = ?r =>
          replace a' with a by lia; replace b' with b by lia; exact H
      end
  end.

(** Shows the operations of [real_arith] as the operations of [R]. *)
Ltac real_ops :=
  cbn [float double int_to_float int_to_double float_to_double double_to_float
       fadd fsub fmul fdiv fneg flt fle fne dmul ddiv M_PI sqrtf sinf cosf
       real_arith] in *.

(** Shows the value of the closed binary32 number [x] in the goal as an
    integer or as a quotient of two integers. *)
Ltac b2r_value x :=
  let y := eval vm_compute in x in
  lazymatch y with
  | S754_finite ?s ?m ?e =>
      let z := constr:(if s then Z.neg m else Z.pos m) in
      let nonneg := eval vm_compute in (0 <=? e) in
      lazymatch nonneg with
      | true =>
          let n := eval vm_compute in (z * 2 ^ e) in
          change (B2R x) with (IZR n)
      | false =>
          let n := eval vm_compute in z in
          let d := eval vm_compute in (2 ^ (- e)) in
          change (B2R x) with (IZR n / IZR d)%R
      end
  | _ => change (B2R x) with 0%R
  end.

Ltac b2r := repeat match goal with |- context [B2R ?x] => b2r_value x end.

(** * Properties *)

(** ** The comparison law holds in both arithmetics *)

Lemma SFcompare_antisym (a b : spec_float) :
  SFcompare a b = option_map CompOpp (SFcompare b a).
Proof.
  destruct a as [sa|sa| |sa ma ea], b as [sb|sb| |sb mb eb]; simpl;
    try destruct sa; try destruct sb; simpl; try reflexivity;
    change (Pos.compare_cont Eq ma mb) with (Pos.compare ma mb);
    change (Pos.compare_cont Eq mb ma) with (Pos.compare mb ma);
    rewrite (Z.compare_antisym ea eb), (Pos.compare_antisym ma mb);
    destruct (ea ?= eb)%Z; simpl; try reflexivity;
    destruct (Pos.compare ma mb); reflexivity.
Qed.

Lemma SFleb_SFltb_false (a b : spec_float) : SFltb b a = true -> SFleb a b = false.
Proof.
  unfold SFltb, SFleb. rewrite (SFcompare_antisym a b).
  destruct (SFcompare b a) as [[]|]; simpl; congruence.
Qed.

Lemma binary32_laws (libm_sinf libm_cosf : spec_float -> spec_float) :
  ArithLaws (binary32_arith libm_sinf libm_cosf).
Proof. constructor. exact SFleb_SFltb_false. Qed.

Lemma Rleb_Rltb_false (a b : R) : Rltb b a = true -> Rleb a b = false.
Proof.
  unfold Rltb, Rleb. destruct (Rlt_dec b a), (Rle_dec a b); try congruence.
  exfalso; lra.
Qed.

Lemma real_laws : ArithLaws real_arith.
Proof. constructor. exact Rleb_Rltb_false. Qed.

Lemma sample_laws : ArithLaws Sample.arith.
Proof. apply binary32_laws. Qed.

#[global] Existing Instance binary32_laws.
#[global] Existing Instance real_laws.
#[global] Existing Instance sample_laws.

(** ** Rules for the counted loops *)

Section LoopRules.
Context {S : Type}.

Lemma for_nonpos (n : Z) (body : Z -> S -> S) (s : S) :
  n <= 0 -> for_ n body s = s.
Proof. intros Hn. unfold for_. now rewrite seqZ_nil. Qed.

Lemma for_succ (n : Z) (body : Z -> S -> S) (s : S) :
  0 <= n -> for_ (n + 1) body s = body n (for_ n body s).
Proof.
  intros Hn. unfold for_.
  replace (n + 1) with (Z.of_nat (Datatypes.S (Z.to_nat n))) by lia.
  rewrite seqZ_S, foldl_snoc.
  now replace (Z.of_nat (Z.to_nat n)) with n by lia.
Qed.

(** Invariant rule: [P i s] holds before round [i]. *)
Lemma for_invariant (P : Z -> S -> Prop) (n : Z) (body : Z -> S -> S) (s : S) :
  0 <= n ->
  P 0 s ->
  (forall i s', 0 <= i < n -> P i s' -> P (i + 1) (body i s')) ->
  P n (for_ n body s).
Proof.
  intros Hn H0 Hstep.
  assert (forall k : nat, Z.of_nat k <= n -> P (Z.of_nat k) (for_ (Z.of_nat k) body s))
    as Hk.
  { induction k as [|k IH]; intros Hle.
    - now rewrite for_nonpos by lia.
    - replace (Z.of_nat (Datatypes.S k)) with (Z.of_nat k + 1) by lia.
      rewrite for_succ by lia. apply Hstep; [lia|]. apply IH. lia. }
  specialize (Hk (Z.to_nat n)). rewrite Z2Nat.id in Hk by lia. apply Hk. lia.
Qed.

Lemma forM_nonpos (n : Z) (body : Z -> S -> option S) (s : S) :
  n <= 0 -> forM n body s = Some s.
Proof. intros Hn. unfold forM. now rewrite seqZ_nil. Qed.

Lemma forM_succ (n : Z) (body : Z -> S -> option S) (s : S) :
  0 <= n -> forM (n + 1) body s = forM n body s ≫= body n.
Proof.
  intros Hn. unfold forM.
  replace (n + 1) with (Z.of_nat (Datatypes.S (Z.to_nat n))) by lia.
  rewrite seqZ_S, foldl_snoc.
  now replace (Z.of_nat (Z.to_nat n)) with n by lia.
Qed.

(** Invariant rule for a loop whose body may fail: if every round succeeds
    from a state that satisfies the invariant, the loop succeeds. *)
Lemma forM_invariant (P : Z -> S -> Prop) (n : Z) (body : Z -> S -> option S) (s : S) :
  0 <= n ->
  P 0 s ->
  (forall i s', 0 <= i < n -> P i s' -> exists s'', body i s' = Some s'' /\ P (i + 1) s'') ->
  exists s', forM n body s = Some s' /\ P n s'.
Proof.
  intros Hn H0 Hstep.
  assert (forall k : nat, Z.of_nat k <= n ->
            exists s', forM (Z.of_nat k) body s = Some s' /\ P (Z.of_nat k) s') as Hk.
  { induction k as [|k IH]; intros Hle.
    - exists s. now rewrite forM_nonpos by lia.
    - destruct IH as (s1 & E1 & P1); [lia|].
      destruct (Hstep (Z.of_nat k) s1) as (s2 & E2 & P2); [lia|assumption|].
      exists s2. replace (Z.of_nat (Datatypes.S k)) with (Z.of_nat k + 1) by lia.
      rewrite forM_succ, E1 by lia. simpl. now split. }
  specialize (Hk (Z.to_nat n)). rewrite Z2Nat.id in Hk by lia. apply Hk. lia.
Qed.

(** What every successful round preserves, a successful loop preserves. *)
Lemma forM_preserves (Q : S -> Prop) (n : Z) (body : Z -> S -> option S) (s s' : S) :
  Q s ->
  (forall i a b, Q a -> body i a = Some b -> Q b) ->
  forM n body s = Some s' -> Q s'.
Proof.
  intros H0 Hstep.
  destruct (Z.le_gt_cases n 0) as [Hn|Hn].
  { rewrite forM_nonpos by lia. congruence. }
  replace n with (Z.of_nat (Z.to_nat n)) by lia.
  generalize (Z.to_nat n) as k. clear Hn. intros k. revert s'.
  induction k as [|k IH]; intros s'.
  - rewrite forM_nonpos by lia. congruence.
  - replace (Z.of_nat (Datatypes.S k)) with (Z.of_nat k + 1) by lia.
    rewrite forM_succ by lia.
    destruct (forM (Z.of_nat k) body s) as [s1|]; [|discriminate].
    cbn [mbind option_bind]. intros E. eapply Hstep; [|exact E]. now apply IH.
Qed.

End LoopRules.

(** A loop that stores [g i] into cell [i] of an array leaves [g i] in the
    cells [0 <= i < n] and the other cells as they were. *)
Lemma for_fill {T : Type} (n : Z) (g : Z -> T) (a : Z -> T) (j : Z) :
  for_ n (fun i a => <[ i := g i ]> a) a j = if bool_decide (0 <= j < n) then g j else a j.
Proof.
  destruct (Z.le_gt_cases n 0) as [Hn|Hn].
  { rewrite for_nonpos by lia. now rewrite bool_decide_eq_false_2 by lia. }
  revert j. apply (for_invariant
    (fun k s => forall j, s j = if bool_decide (0 <= j < k) then g j else a j)
    n (fun i a => <[ i := g i ]> a) a); [lia| |].
  - intros j. now rewrite bool_decide_eq_false_2 by lia.
  - intros i s Hi IH j. destruct (decide (i = j)) as [->|Hne].
    + rewrite fn_lookup_insert. now rewrite bool_decide_eq_true_2 by lia.
    + rewrite fn_lookup_insert_ne, IH by assumption.
      destruct (bool_decide_reflect (0 <= j < i)), (bool_decide_reflect (0 <= j < i + 1));
        try reflexivity; lia.
Qed.

(** ** calculateIntersection *)

Section IntersectionProps.
Context {A : Arith}.
Variable vertices : Z -> Vector3.
Variable start : Vector3.
Variable dir : Vector2.

Lemma loop_step (todo : nat) (p1 p2 : Z) (out : Hit) :
  calculateIntersection_loop vertices start dir (Datatypes.S todo) p1 p2 out
  = if edge_accepted vertices start dir p1 p2 then hit_of vertices start dir p1 p2
    else calculateIntersection_loop vertices start dir todo p2 (p2 + 1) out.
Proof. reflexivity. Qed.

Lemma later_from_shift (p1 p2 : Z) (j : nat) :
  later_from p2 (p2 + 1) j = later_from p1 p2 (Datatypes.S j).
Proof. destruct j; cbn [later_from]; lia. Qed.

Lemma loop_no_hit (todo : nat) : forall (p1 p2 : Z) (out : Hit),
  (forall j : nat, (j < todo)%nat ->
     edge_accepted vertices start dir (later_from p1 p2 j) (p2 + Z.of_nat j) = false) ->
  calculateIntersection_loop vertices start dir todo p1 p2 out = out.
Proof.
  induction todo as [|todo IH]; intros p1 p2 out Hno; [reflexivity|].
  rewrite loop_step.
  pose proof (Hno O ltac:(lia)) as H0. cbn [later_from] in H0.
  replace (p2 + Z.of_nat 0) with p2 in H0 by lia. rewrite H0.
  apply IH. intros j Hj. specialize (Hno (Datatypes.S j) ltac:(lia)).
  rewrite (later_from_shift p1). same_edge Hno.
Qed.

Lemma loop_first_hit (k : nat) : forall (todo : nat) (p1 p2 : Z) (out : Hit),
  (k < todo)%nat ->
  (forall j : nat, (j < k)%nat ->
     edge_accepted vertices start dir (later_from p1 p2 j) (p2 + Z.of_nat j) = false) ->
  edge_accepted vertices start dir (later_from p1 p2 k) (p2 + Z.of_nat k) = true ->
  calculateIntersection_loop vertices start dir todo p1 p2 out
  = hit_of vertices start dir (later_from p1 p2 k) (p2 + Z.of_nat k).
Proof.
  induction k as [|k IH]; intros todo p1 p2 out Hk Hno Hyes;
    (destruct todo as [|todo]; [lia|]); rewrite loop_step.
  - cbn [later_from] in *. replace (p2 + Z.of_nat 0) with p2 in * by lia.
    now rewrite Hyes.
  - pose proof (Hno O ltac:(lia)) as H0. cbn [later_from] in H0.
    replace (p2 + Z.of_nat 0) with p2 in H0 by lia. rewrite H0.
    rewrite (IH todo p2 (p2 + 1) out); [| lia | |].
    + rewrite (later_from_shift p1).
      now replace (p2 + 1 + Z.of_nat k) with (p2 + Z.of_nat (Datatypes.S k)) by lia.
    + intros j Hj. specialize (Hno (Datatypes.S j) ltac:(lia)).
      rewrite (later_from_shift p1). same_edge Hno.
    + rewrite (later_from_shift p1). same_edge Hyes.
Qed.

Lemma later_from_edge_from (n : Z) (j : nat) :
  later_from (n - 1) 0 j = edge_from n (Z.of_nat j).
Proof.
  unfold edge_from. destruct j as [|j]; cbn [later_from]; [reflexivity|].
  destruct (Z.eqb_spec (Z.of_nat (Datatypes.S j)) 0); lia.
Qed.

(** With no accepted edge the outputs keep the values they had. *)
Lemma calculateIntersection_no_hit (vertexCount : Z) (out : Hit) :
  (forall p2, 0 <= p2 < vertexCount ->
     edge_accepted vertices start dir (edge_from vertexCount p2) p2 = false) ->
  calculateIntersection vertices start dir vertexCount out = out.
Proof.
  intros Hno. unfold calculateIntersection. apply loop_no_hit.
  intros j Hj. rewrite later_from_edge_from. apply Hno. lia.
Qed.

(** The first accepted edge, in the order of the loop, is reported. *)
Lemma calculateIntersection_first_hit (vertexCount : Z) (out : Hit) (p2 : Z) :
  0 <= p2 < vertexCount ->
  (forall j, 0 <= j < p2 ->
     edge_accepted vertices start dir (edge_from vertexCount j) j = false) ->
  edge_accepted vertices start dir (edge_from vertexCount p2) p2 = true ->
  calculateIntersection vertices start dir vertexCount out
  = hit_of vertices start dir (edge_from vertexCount p2) p2.
Proof.
  intros Hp2 Hno Hyes. unfold calculateIntersection.
  rewrite (loop_first_hit (Z.to_nat p2)); [| lia | |].
  - rewrite later_from_edge_from. now rewrite !Z2Nat.id, Z.add_0_l by lia.
  - intros j Hj. rewrite later_from_edge_from. apply Hno. lia.
  - rewrite later_from_edge_from. rewrite !Z2Nat.id, Z.add_0_l by lia. exact Hyes.
Qed.

End IntersectionProps.

(** ** The vertex buffer *)

Section BufferProps.
Context {A : Arith}.

Lemma length_alloc (n : Z) : length (alloc n) = Z.to_nat n.
Proof. apply length_replicate. Qed.

Lemma shadowVertex_alloc (n k : Z) : shadowVertex (alloc n) k = None.
Proof.
  unfold shadowVertex, alloc. case_bool_decide; [|reflexivity].
  destruct (_ !! _) as [c|] eqn:E; [|reflexivity].
  apply lookup_replicate in E as [-> _]. reflexivity.
Qed.

Lemma store_in_range (k : Z) (v : AlphaVertex) (buf : list (option AlphaVertex)) :
  0 <= k < Z.of_nat (length buf) ->
  store k v buf = Some (<[ Z.to_nat k := Some v ]> buf).
Proof. intros Hk. unfold store. now rewrite bool_decide_eq_true_2. Qed.

Lemma store_out_of_range (k : Z) (v : AlphaVertex) (buf : VertexBuffer) :
  ~ (0 <= k < Z.of_nat (length buf)) -> store k v buf = None.
Proof. intros Hk. unfold store. now rewrite bool_decide_eq_false_2. Qed.

Lemma shadowVertex_insert (k : Z) (v : AlphaVertex) (buf : list (option AlphaVertex))
    (j : Z) :
  0 <= k < Z.of_nat (length buf) ->
  shadowVertex (<[ Z.to_nat k := Some v ]> buf) j
  = if bool_decide (j = k) then Some v else shadowVertex buf j.
Proof.
  intros Hk. unfold shadowVertex.
  destruct (bool_decide_reflect (j = k)) as [->|Hne].
  - rewrite bool_decide_eq_true_2 by lia.
    rewrite list_lookup_insert_eq by lia. reflexivity.
  - case_bool_decide; [|reflexivity].
    rewrite list_lookup_insert_ne by lia. reflexivity.
Qed.

Lemma store_length (k : Z) (v : AlphaVertex) (buf buf' : list (option AlphaVertex)) :
  store k v buf = Some buf' -> length buf' = length buf.
Proof.
  unfold store. case_bool_decide; [|discriminate].
  intros [= <-]. apply length_insert.
Qed.

End BufferProps.

(** ** The arrays of createAmbientShadow *)

Section ArrayProps.
Context {A : Arith}.
Variable rays : Z.
Variable ind : Indeterminate.
Variable vertices : Z -> Vector3.
Variable vertexCount : Z.
Variable centroid3d : Vector3.

(** [calculateRayDirections] writes the cells [0 <= i < rays] of [dir] and
    no other. *)
Lemma calculateRayDirections_cell (dir : Z -> Vector2) (i : Z) :
  calculateRayDirections rays dir i
  = if bool_decide (0 <= i < rays)
    then {| v2_x := sinf (deltaAngle rays * #i)%flt;
            v2_y := cosf (deltaAngle rays * #i)%flt |}
    else dir i.
Proof.
  exact (for_fill rays
           (fun i => {| v2_x := sinf (deltaAngle rays * #i)%flt;
                        v2_y := cosf (deltaAngle rays * #i)%flt |}) dir i).
Qed.

Lemma dirs_cell (i : Z) :
  0 <= i < rays ->
  dirs rays ind i
  = {| v2_x := sinf (deltaAngle rays * #i)%flt;
       v2_y := cosf (deltaAngle rays * #i)%flt |}.
Proof.
  intros Hi. unfold dirs. rewrite calculateRayDirections_cell.
  now rewrite bool_decide_eq_true_2.
Qed.

(** A round of the first loop stores to cell [i] of both arrays. *)
Lemma intersect_ray_stores (i : Z) (rd rh : Z -> float) :
  intersect_ray rays ind vertices vertexCount centroid3d i (rd, rh)
  = (<[ i := outRayDist (ray_hit rays ind vertices vertexCount centroid3d i) ]> rd,
     <[ i := interpolated_height rays ind vertices vertexCount centroid3d i ]> rh).
Proof. reflexivity. Qed.

Lemma ray_arrays_split :
  ray_arrays rays ind vertices vertexCount centroid3d
  = (for_ rays
       (fun i a => <[ i := outRayDist (ray_hit rays ind vertices vertexCount centroid3d i) ]> a)
       (ind_rayDist ind),
     for_ rays
       (fun i a => <[ i := interpolated_height rays ind vertices vertexCount centroid3d i ]> a)
       (ind_rayHeight ind)).
Proof.
  unfold ray_arrays.
  destruct (Z.le_gt_cases rays 0) as [Hn|Hn].
  { now rewrite !for_nonpos by lia. }
  apply (for_invariant
    (fun k s =>
       s = (for_ k
              (fun i a =>
                 <[ i := outRayDist (ray_hit rays ind vertices vertexCount centroid3d i) ]> a)
              (ind_rayDist ind),
            for_ k
              (fun i a =>
                 <[ i := interpolated_height rays ind vertices vertexCount centroid3d i ]> a)
              (ind_rayHeight ind)))); [lia| |].
  - now rewrite !for_nonpos by lia.
  - intros i s Hi ->. rewrite intersect_ray_stores. now rewrite !for_succ by lia.
Qed.

(** [rayDist[i]] is the distance [calculateIntersection] left in its
    output. *)
Lemma rayDist_cell (i : Z) :
  0 <= i < rays ->
  rayDist rays ind vertices vertexCount centroid3d i
  = outRayDist (ray_hit rays ind vertices vertexCount centroid3d i).
Proof.
  intros Hi. unfold rayDist. rewrite ray_arrays_split. cbn [fst].
  rewrite for_fill. now rewrite bool_decide_eq_true_2.
Qed.

(** [rayHeight[i]] is the height interpolated along the edge in use. *)
Lemma rayHeight_cell (i : Z) :
  0 <= i < rays ->
  rayHeight rays ind vertices vertexCount centroid3d i
  = interpolated_height rays ind vertices vertexCount centroid3d i.
Proof.
  intros Hi. unfold rayHeight. rewrite ray_arrays_split. cbn [snd].
  rewrite for_fill. now rewrite bool_decide_eq_true_2.
Qed.

End ArrayProps.

(** ** The two loops that store to the vertex buffer *)

Section RingProps.
Context {A : Arith}.
Variable rays : Z.
Variable ind : Indeterminate.
Variable vertices : Z -> Vector3.
Variable vertexCount : Z.
Variable centroid3d : Vector3.
Variable heightFactor geomFactor : float.

Lemma store_rings_stores (i : Z) (buf : list (option AlphaVertex)) :
  store_rings rays ind vertices vertexCount centroid3d heightFactor geomFactor i buf
  = store i (outer_vertex rays ind vertices vertexCount centroid3d heightFactor geomFactor i) buf
    ≫= store (rays + i) (inner_vertex rays ind vertices vertexCount centroid3d heightFactor i).
Proof. reflexivity. Qed.

(** The loop over the rays stores the outer ring to the cells [0 .. rays)
    and the inner ring to the cells [rays .. 2 * rays); it succeeds when the
    buffer has [2 * rays] cells. *)
Lemma ring_loop (buf0 : list (option AlphaVertex)) :
  0 <= rays ->
  2 * rays <= Z.of_nat (length buf0) ->
  exists buf : list (option AlphaVertex),
    forM rays (store_rings rays ind vertices vertexCount centroid3d heightFactor geomFactor) buf0
    = Some buf
    /\ length buf = length buf0
    /\ forall k,
         shadowVertex buf k
         = if bool_decide (0 <= k < rays)
           then Some (outer_vertex rays ind vertices vertexCount centroid3d
                        heightFactor geomFactor k)
           else if bool_decide (rays <= k < 2 * rays)
           then Some (inner_vertex rays ind vertices vertexCount centroid3d
                        heightFactor (k - rays))
           else shadowVertex buf0 k.
Proof.
  intros Hrays Hcap.
  cut (exists buf : list (option AlphaVertex),
    forM rays (store_rings rays ind vertices vertexCount centroid3d heightFactor geomFactor) buf0
    = Some buf
    /\ length buf = length buf0
    /\ forall k,
         shadowVertex buf k
         = if bool_decide (0 <= k < rays)
           then Some (outer_vertex rays ind vertices vertexCount centroid3d
                        heightFactor geomFactor k)
           else if bool_decide (rays <= k < rays + rays)
           then Some (inner_vertex rays ind vertices vertexCount centroid3d
                        heightFactor (k - rays))
           else shadowVertex buf0 k).
  { intros (buf & E & Hlen & Hcells). exists buf. repeat split; try assumption.
    intros k. rewrite Hcells. now replace (rays + rays) with (2 * rays) by lia. }
  apply (forM_invariant
    (fun j (buf : list (option AlphaVertex)) =>
       length buf = length buf0
       /\ forall k,
            shadowVertex buf k
            = if bool_decide (0 <= k < j)
              then Some (outer_vertex rays ind vertices vertexCount centroid3d
                           heightFactor geomFactor k)
              else if bool_decide (rays <= k < rays + j)
              then Some (inner_vertex rays ind vertices vertexCount centroid3d
                           heightFactor (k - rays))
              else shadowVertex buf0 k)
    rays (store_rings rays ind vertices vertexCount centroid3d heightFactor geomFactor)
    buf0); [lia| |].
  - split; [reflexivity|]. intros k.
    now rewrite !bool_decide_eq_false_2 by lia.
  - intros i buf Hi [Hlen Hcells].
    rewrite store_rings_stores, store_in_range by lia. cbn [mbind option_bind].
    rewrite store_in_range by (rewrite length_insert; lia).
    eexists; split; [reflexivity|]. split.
    + now rewrite !length_insert.
    + intros k. rewrite !shadowVertex_insert, Hcells by (rewrite ?length_insert; lia).
      repeat case_bool_decide; subst; try lia; try reflexivity.
      now replace (rays + i - rays) with i by lia.
Qed.

(** The loop of the non-opaque case stores the same vertex to the cells
    [2 * rays .. 3 * rays). *)
Lemma centroid_loop (v : AlphaVertex) (buf0 : list (option AlphaVertex)) :
  0 <= rays ->
  3 * rays <= Z.of_nat (length buf0) ->
  exists buf : list (option AlphaVertex),
    forM rays (fun rayIndex => store (2 * rays + rayIndex) v) buf0 = Some buf
    /\ length buf = length buf0
    /\ forall k,
         shadowVertex buf k
         = if bool_decide (2 * rays <= k < 3 * rays) then Some v else shadowVertex buf0 k.
Proof.
  intros Hrays Hcap.
  cut (exists buf : list (option AlphaVertex),
    forM rays (fun rayIndex => store (2 * rays + rayIndex) v) buf0 = Some buf
    /\ length buf = length buf0
    /\ forall k,
         shadowVertex buf k
         = if bool_decide (2 * rays <= k < 2 * rays + rays) then Some v
           else shadowVertex buf0 k).
  { intros (buf & E & Hlen & Hcells). exists buf. repeat split; try assumption.
    intros k. rewrite Hcells. now replace (2 * rays + rays) with (3 * rays) by lia. }
  apply (forM_invariant
    (fun j (buf : list (option AlphaVertex)) =>
       length buf = length buf0
       /\ forall k,
            shadowVertex buf k
            = if bool_decide (2 * rays <= k < 2 * rays + j) then Some v
              else shadowVertex buf0 k)
    rays (fun rayIndex => store (2 * rays + rayIndex) v) buf0); [lia| |].
  - split; [reflexivity|]. intros k. now rewrite bool_decide_eq_false_2 by lia.
  - intros i buf Hi [Hlen Hcells].
    rewrite store_in_range by lia.
    eexists; split; [reflexivity|]. split.
    + now rewrite length_insert.
    + intros k. rewrite shadowVertex_insert, Hcells by lia.
      repeat case_bool_decide; subst; try lia; reflexivity.
Qed.

End RingProps.

(** ** Counting the stored vertices *)

Section PopulatedProps.
Context {A : Arith}.

Lemma shadowVertex_nat (buf : list (option AlphaVertex)) (k : nat) :
  shadowVertex buf (Z.of_nat k)
  = match buf !! k with Some (Some v) => Some v | _ => None end.
Proof.
  unfold shadowVertex. rewrite bool_decide_eq_true_2 by lia. now rewrite Nat2Z.id.
Qed.

Lemma shadowVertex_cons (c : option AlphaVertex) (buf : list (option AlphaVertex)) (k : nat) :
  shadowVertex (c :: buf) (Z.of_nat (Datatypes.S k)) = shadowVertex buf (Z.of_nat k).
Proof. now rewrite !shadowVertex_nat. Qed.

(** When exactly the first [m] cells hold a vertex, [m] vertices are
    stored. *)
Lemma populated_prefix_nat (buf : list (option AlphaVertex)) : forall m : nat,
  (forall k : nat, is_Some (shadowVertex buf (Z.of_nat k)) <-> (k < m)%nat) ->
  length (omap (fun cell => cell) buf) = m.
Proof.
  induction buf as [|c buf IH]; intros m Hm.
  - destruct m as [|m]; [reflexivity|].
    destruct (proj2 (Hm O) ltac:(lia)) as [v Hv].
    rewrite shadowVertex_nat in Hv. discriminate.
  - destruct m as [|m].
    + assert (c = None) as ->.
      { destruct c as [v|]; [|reflexivity].
        assert (is_Some (shadowVertex (Some v :: buf) (Z.of_nat 0))) as Hs
          by (rewrite shadowVertex_nat; eexists; reflexivity).
        apply Hm in Hs. lia. }
      cbn [omap list_omap]. apply IH. intros k.
      rewrite <- (shadowVertex_cons None buf k), Hm. lia.
    + destruct c as [v|].
      * cbn [omap list_omap length]. f_equal. apply IH. intros k.
        rewrite <- (shadowVertex_cons (Some v) buf k), Hm. lia.
      * destruct (proj2 (Hm O) ltac:(lia)) as [v Hv].
        rewrite shadowVertex_nat in Hv. discriminate.
Qed.

Lemma populated_prefix (buf : list (option AlphaVertex)) (m : Z) :
  0 <= m ->
  (forall k, is_Some (shadowVertex buf k) <-> 0 <= k < m) ->
  populated buf = m.
Proof.
  intros Hm Hcells. unfold populated.
  rewrite (populated_prefix_nat buf (Z.to_nat m)); [lia|].
  intros k. rewrite Hcells. lia.
Qed.

End PopulatedProps.

(** ** createAmbientShadow *)

Section ShadowProps.
Context {A : Arith}.
Variable rays : Z.
Variable capacity : Z.
Variable ind : Indeterminate.
Variable vertices : Z -> Vector3.
Variable vertexCount : Z.
Variable centroid3d : Vector3.
Variable heightFactor geomFactor : float.

(** Inputs with [vertexCount >= 3], [heightFactor > 0], [rays > 0] and
    [geomFactor > 0] pass the validation. *)
Lemma valid_input_passes {L : ArithLaws A} :
  3 <= vertexCount ->
  (heightFactor >? #0)%flt = true ->
  0 < rays ->
  (geomFactor >? #0)%flt = true ->
  invalid_input rays vertexCount heightFactor geomFactor = false.
Proof.
  intros Hv Hh Hr Hg. unfold invalid_input.
  rewrite (fle_flt_false _ _ Hh), (fle_flt_false _ _ Hg).
  destruct (Z.ltb_spec vertexCount 3), (Z.leb_spec rays 0); first [reflexivity | lia].
Qed.

Lemma invalid_input_false_rays :
  invalid_input rays vertexCount heightFactor geomFactor = false -> 0 < rays.
Proof.
  unfold invalid_input. intros H.
  apply orb_false_elim in H as [H _]. apply orb_false_elim in H as [_ H].
  now apply Z.leb_gt in H.
Qed.

(** The whole buffer after a run on inputs that pass the validation, when
    the allocation has room for the rings that are stored. *)
Lemma createAmbientShadow_cells (isCasterOpaque : bool) (buf0 : VertexBuffer) :
  invalid_input rays vertexCount heightFactor geomFactor = false ->
  (if isCasterOpaque then 2 else 3) * rays <= capacity ->
  exists buf : list (option AlphaVertex),
    createAmbientShadow rays capacity ind vertices vertexCount centroid3d
      heightFactor geomFactor isCasterOpaque buf0
    = Some (if isCasterOpaque then kVertexBufferMode_OnePolyRingShadow
            else kVertexBufferMode_TwoPolyRingShadow, buf)
    /\ Z.of_nat (length buf) = capacity
    /\ forall k,
         shadowVertex buf k
         = if bool_decide (0 <= k < rays)
           then Some (outer_vertex rays ind vertices vertexCount centroid3d
                        heightFactor geomFactor k)
           else if bool_decide (rays <= k < 2 * rays)
           then Some (inner_vertex rays ind vertices vertexCount centroid3d
                        heightFactor (k - rays))
           else if negb isCasterOpaque && bool_decide (2 * rays <= k < 3 * rays)
           then Some (centroidXYA centroid3d heightFactor)
           else None.
Proof.
  intros Hvalid Hcap. pose proof (invalid_input_false_rays Hvalid) as Hrays.
  unfold createAmbientShadow. rewrite Hvalid.
  destruct (ring_loop rays ind vertices vertexCount centroid3d heightFactor geomFactor
              (alloc capacity)) as (buf1 & E1 & Hlen1 & Hcells1).
  { lia. }
  { rewrite length_alloc. destruct isCasterOpaque; lia. }
  rewrite E1. cbn [mbind option_bind]. rewrite length_alloc in Hlen1.
  destruct isCasterOpaque; cbn [negb].
  - exists buf1. split; [reflexivity|]. split; [lia|].
    intros k. rewrite Hcells1, shadowVertex_alloc. cbn [andb]. reflexivity.
  - destruct (centroid_loop rays (centroidXYA centroid3d heightFactor) buf1)
      as (buf2 & E2 & Hlen2 & Hcells2); [lia|lia|].
    rewrite E2. cbn [mbind option_bind].
    exists buf2. split; [reflexivity|]. split; [lia|].
    intros k. rewrite Hcells2, Hcells1, shadowVertex_alloc. cbn [andb].
    repeat case_bool_decide; try lia; reflexivity.
Qed.

(** A run that passes the validation and completes returns a buffer of
    [capacity] cells, whatever the opacity of the caster. *)
Lemma createAmbientShadow_length (isCasterOpaque : bool) (buf0 : VertexBuffer)
    (mode : VertexBufferMode) (buf : list (option AlphaVertex)) :
  invalid_input rays vertexCount heightFactor geomFactor = false ->
  createAmbientShadow rays capacity ind vertices vertexCount centroid3d
    heightFactor geomFactor isCasterOpaque buf0 = Some (mode, buf) ->
  length buf = Z.to_nat capacity.
Proof.
  intros Hvalid. unfold createAmbientShadow. rewrite Hvalid.
  destruct (forM rays _ (alloc capacity)) as [buf1|] eqn:E1; [|discriminate].
  cbn [mbind option_bind].
  assert (length buf1 = Z.to_nat capacity) as Hlen1.
  { revert E1.
    apply (forM_preserves (fun b : list (option AlphaVertex) => length b = Z.to_nat capacity));
      [apply length_alloc|].
    intros i a b Ha. rewrite store_rings_stores.
    destruct (store i _ a) as [a1|] eqn:Ea; [|discriminate]. cbn [mbind option_bind].
    intros Eb. apply store_length in Ea, Eb. congruence. }
  destruct isCasterOpaque; cbn [negb].
  - intros [= _ <-]. exact Hlen1.
  - clear E1. destruct (forM _ _ _) as [buf2|] eqn:E2; [|discriminate].
    cbn [mbind option_bind]. intros [= _ <-].
    revert E2.
    apply (forM_preserves (fun b : list (option AlphaVertex) => length b = Z.to_nat capacity));
      [exact Hlen1|].
    intros i a b Ha Eb. apply store_length in Eb. congruence.
Qed.

End ShadowProps.

(** ** The claims about createAmbientShadow *)

(** C2.  When [vertexCount < 3], or [heightFactor <= 0], or the ray count is
    not positive, or [geomFactor <= 0], [createAmbientShadow] returns the mode
    it starts with, [kVertexBufferMode_OnePolyRingShadow], and the vertex
    buffer is the one it was given: nothing is allocated and nothing is
    stored, so a buffer that was empty is empty. *)
Theorem createAmbientShadow_invalid_input {A : Arith} (rays capacity : Z)
    (ind : Indeterminate) (vertices : Z -> Vector3) (vertexCount : Z)
    (centroid3d : Vector3) (heightFactor geomFactor : float)
    (isCasterOpaque : bool) (buf0 : VertexBuffer) :
  vertexCount < 3 \/ (heightFactor <=? #0)%flt = true \/ rays <= 0
    \/ (geomFactor <=? #0)%flt = true ->
  createAmbientShadow rays capacity ind vertices vertexCount centroid3d
    heightFactor geomFactor isCasterOpaque buf0
  = Some (kVertexBufferMode_OnePolyRingShadow, buf0).
Proof.
  intros H. unfold createAmbientShadow.
  replace (invalid_input rays vertexCount heightFactor geomFactor) with true; [reflexivity|].
  symmetry. unfold invalid_input.
  destruct H as [H|[H|[H|H]]].
  - apply Z.ltb_lt in H. now rewrite H.
  - rewrite H. now rewrite orb_true_r.
  - apply Z.leb_le in H. rewrite H. now rewrite orb_true_r.
  - rewrite H. now rewrite !orb_true_r.
Qed.

Lemma createAmbientShadow_invalid_input_witness :
  (2 < 3 \/ (Sample.f32 1 <=? #0)%flt = true \/ 1 <= 0 \/ (Sample.f32 1 <=? #0)%flt = true)
  /\ createAmbientShadow (A := Sample.arith) 1 3 Sample.ind Sample.square 2 Sample.centre
       (Sample.f32 1) (Sample.f32 1) false []
     = Some (kVertexBufferMode_OnePolyRingShadow, []).
Proof.
  split; [left; lia|].
  apply (createAmbientShadow_invalid_input (A := Sample.arith) 1 3 Sample.ind Sample.square 2).
  left; lia.
Defined.

(** C1, as the code has it.  On valid inputs [createAmbientShadow] allocates
    [capacity] (SHADOW_VERTEX_COUNT) cells whether or not the caster is
    opaque; when that allocation has room for them it stores exactly
    [2 * rays] vertices, to the cells [0 .. 2 * rays), for an opaque caster
    and exactly [3 * rays] vertices, to the cells [0 .. 3 * rays), for a
    non-opaque one, and leaves the other cells unwritten. *)
Theorem createAmbientShadow_vertex_count {A : Arith} {L : ArithLaws A}
    (rays capacity : Z) (ind : Indeterminate) (vertices : Z -> Vector3)
    (vertexCount : Z) (centroid3d : Vector3) (heightFactor geomFactor : float)
    (isCasterOpaque : bool) (buf0 : VertexBuffer) :
  3 <= vertexCount ->
  (heightFactor >? #0)%flt = true ->
  0 < rays ->
  (geomFactor >? #0)%flt = true ->
  (if isCasterOpaque then 2 else 3) * rays <= capacity ->
  exists (mode : VertexBufferMode) (buf : VertexBuffer),
    createAmbientShadow rays capacity ind vertices vertexCount centroid3d
      heightFactor geomFactor isCasterOpaque buf0 = Some (mode, buf)
    /\ Z.of_nat (length buf) = capacity
    /\ populated buf = (if isCasterOpaque then 2 else 3) * rays
    /\ forall k, is_Some (shadowVertex buf k)
                 <-> 0 <= k < (if isCasterOpaque then 2 else 3) * rays.
Proof.
  intros Hv Hh Hr Hg Hcap.
  destruct (createAmbientShadow_cells rays capacity ind vertices vertexCount centroid3d
              heightFactor geomFactor isCasterOpaque buf0)
    as (buf & E & Hlen & Hcells); [now apply valid_input_passes|exact Hcap|].
  assert (forall k, is_Some (shadowVertex buf k)
                    <-> 0 <= k < (if isCasterOpaque then 2 else 3) * rays) as Hpop.
  { intros k. rewrite Hcells.
    destruct isCasterOpaque; cbn [negb andb]; repeat case_bool_decide;
      split; intros Hs; try lia; try (eexists; reflexivity);
      destruct Hs as [? Hs]; discriminate. }
  eexists _, buf. split; [exact E|]. split; [exact Hlen|]. split; [|exact Hpop].
  apply populated_prefix; [destruct isCasterOpaque; lia|exact Hpop].
Qed.

Lemma createAmbientShadow_vertex_count_witness :
  exists (mode : VertexBufferMode) (buf : VertexBuffer),
    createAmbientShadow (A := Sample.arith) 1 3 Sample.ind Sample.square 4 Sample.centre
      (Sample.f32 1) (Sample.f32 1) true [] = Some (mode, buf)
    /\ Z.of_nat (length buf) = 3
    /\ populated buf = 2 * 1
    /\ forall k, is_Some (shadowVertex buf k) <-> 0 <= k < 2 * 1.
Proof.
  apply (createAmbientShadow_vertex_count (A := Sample.arith) 1 3 Sample.ind Sample.square 4 Sample.centre
           (Sample.f32 1) (Sample.f32 1) true []);
    first [reflexivity | lia].
Defined.

(** C1, as stated, fails whatever the two constants are: the allocation
    does not depend on the opacity, so it cannot be [2 * rays] cells for
    an opaque and [3 * rays] cells for a non-opaque caster.  The proof runs the
    code on the square of [Sample], once with [isCasterOpaque = true] and
    once with [false]. *)
Lemma allocation_ignores_opacity :
  ~ exists rays capacity : Z, 0 < rays /\ allocates_by_opacity rays capacity.
Proof.
  intros (rays & capacity & Hr & H).
  pose proof (fun o => H Sample.arith sample_laws Sample.ind Sample.square 4
                         Sample.centre (Sample.f32 1) (Sample.f32 1) o []
                         ltac:(lia) eq_refl Hr eq_refl) as Hrun.
  assert (invalid_input (A := Sample.arith) rays 4 (Sample.f32 1) (Sample.f32 1) = false)
    as Hvalid by (apply valid_input_passes; first [reflexivity | lia | exact _]).
  destruct (Hrun true) as (m1 & b1 & E1 & Hlen1).
  destruct (Hrun false) as (m2 & b2 & E2 & Hlen2).
  apply (createAmbientShadow_length _ _ _ _ _ _ _ _ _ _ _ _ Hvalid) in E1, E2.
  lia.
Qed.

(** ** Equality of records, field by field *)

Lemma alphaVertex_eq {A : Arith} (a b : AlphaVertex) :
  av_x a = av_x b -> av_y a = av_y b -> av_alpha a = av_alpha b -> a = b.
Proof. destruct a, b. cbn. congruence. Qed.

Lemma vector2_eq {A : Arith} (a b : Vector2) :
  v2_x a = v2_x b -> v2_y a = v2_y b -> a = b.
Proof. destruct a, b. cbn. congruence. Qed.

Lemma hit_eq {A : Arith} (a b : Hit) :
  outEdgeIndex a = outEdgeIndex b ->
  outEdgeFraction a = outEdgeFraction b ->
  outRayDist a = outRayDist b -> a = b.
Proof. destruct a, b. cbn. congruence. Qed.

(** C5.  On valid inputs with a non-opaque caster the cells
    [2 * rays .. 3 * rays) all hold the same vertex, the centroid's x and y
    with alpha [1 / (1 + centroid3d.z * heightFactor)], and the mode returned is
    [kVertexBufferMode_TwoPolyRingShadow]; with an opaque caster the mode
    returned is [kVertexBufferMode_OnePolyRingShadow]. *)
Theorem createAmbientShadow_centroid_ring {A : Arith} {L : ArithLaws A}
    (rays capacity : Z) (ind : Indeterminate) (vertices : Z -> Vector3)
    (vertexCount : Z) (centroid3d : Vector3) (heightFactor geomFactor : float)
    (isCasterOpaque : bool) (buf0 : VertexBuffer) :
  3 <= vertexCount ->
  (heightFactor >? #0)%flt = true ->
  0 < rays ->
  (geomFactor >? #0)%flt = true ->
  (if isCasterOpaque then 2 else 3) * rays <= capacity ->
  exists buf : VertexBuffer,
    createAmbientShadow rays capacity ind vertices vertexCount centroid3d
      heightFactor geomFactor isCasterOpaque buf0
    = Some (if isCasterOpaque then kVertexBufferMode_OnePolyRingShadow
            else kVertexBufferMode_TwoPolyRingShadow, buf)
    /\ (isCasterOpaque = false ->
        (forall i, 0 <= i < rays ->
           shadowVertex buf (2 * rays + i)
           = Some {| av_x := v3_x centroid3d;
                     av_y := v3_y centroid3d;
                     av_alpha :=
                       double_to_float
                         (ddiv (int_to_double 1)
                            (float_to_double (#1 + v3_z centroid3d * heightFactor)%flt)) |})
        /\ (forall i j, 0 <= i < rays -> 0 <= j < rays ->
              shadowVertex buf (2 * rays + i) = shadowVertex buf (2 * rays + j))).
Proof.
  intros Hv Hh Hr Hg Hcap.
  destruct (createAmbientShadow_cells rays capacity ind vertices vertexCount centroid3d
              heightFactor geomFactor isCasterOpaque buf0)
    as (buf & E & Hlen & Hcells); [now apply valid_input_passes|exact Hcap|].
  exists buf. split; [exact E|]. intros ->.
  assert (forall i, 0 <= i < rays ->
            shadowVertex buf (2 * rays + i) = Some (centroidXYA centroid3d heightFactor))
    as Hring.
  { intros i Hi. rewrite Hcells. cbn [negb andb].
    now rewrite !bool_decide_eq_false_2, bool_decide_eq_true_2 by lia. }
  split.
  - intros i Hi. now rewrite Hring.
  - intros i j Hi Hj. now rewrite !Hring.
Qed.

Lemma createAmbientShadow_centroid_ring_witness :
  (3 <= 4 /\ (Sample.f32 1 >? #0)%flt = true /\ 0 < 1 /\ 3 * 1 <= 3)
  /\ exists buf : VertexBuffer,
       createAmbientShadow (A := Sample.arith) 1 3 Sample.ind Sample.square 4 Sample.centre
         (Sample.f32 1) (Sample.f32 1) false []
       = Some (kVertexBufferMode_TwoPolyRingShadow, buf)
       /\ shadowVertex buf (2 * 1 + 0)
          = Some {| av_x := Sample.f32 0; av_y := Sample.f32 0;
                    av_alpha := b64_to_b32 (SFdiv 53 1024 (b64_of_Z 1) (b64_of_Z 3)) |}.
Proof.
  split; [repeat split; first [reflexivity | lia]|].
  destruct (createAmbientShadow_centroid_ring (A := Sample.arith) 1 3 Sample.ind
              Sample.square 4 Sample.centre (Sample.f32 1) (Sample.f32 1) false []
              ltac:(lia) eq_refl ltac:(lia) eq_refl ltac:(lia))
    as (buf & E & H).
  exists buf. split; [exact E|].
  destruct (H eq_refl) as [Hring _]. rewrite (Hring 0) by lia.
  apply f_equal, alphaVertex_eq; vm_compute; reflexivity.
Defined.

(** ** The claims about calculateIntersection *)

(** A bounded search either finds no index or finds a first one. *)
Lemma first_true_cases (f : Z -> bool) (n : Z) :
  (forall p2, 0 <= p2 < n -> f p2 = false)
  \/ exists p2, 0 <= p2 < n /\ f p2 = true /\ forall j, 0 <= j < p2 -> f j = false.
Proof.
  destruct (Z.le_gt_cases n 0) as [Hn|Hn]; [left; intros; lia|].
  replace n with (Z.of_nat (Z.to_nat n)) by lia.
  generalize (Z.to_nat n) as k. clear Hn. intros k.
  induction k as [|k IH]; [left; intros; lia|].
  destruct IH as [Hno|(p2 & Hp2 & Hyes & Hfirst)].
  - destruct (f (Z.of_nat k)) eqn:Ek.
    + right. exists (Z.of_nat k). split; [lia|]. split; [exact Ek|].
      intros j Hj. apply Hno. lia.
    + left. intros p2 Hp2. destruct (decide (p2 = Z.of_nat k)) as [->|Hne]; [assumption|].
      apply Hno. lia.
  - right. exists p2. split; [lia|]. split; assumption.
Qed.

(** The acceptance test, test by test. *)
Lemma edge_accepted_true {A : Arith} (vertices : Z -> Vector3) (start : Vector3)
    (dir : Vector2) (p1 p2 : Z) :
  edge_accepted vertices start dir p1 p2 = true
  <-> (edge_div vertices dir p1 p2 !=? #0)%flt = true
      /\ (edge_t vertices start dir p1 p2 >? #0)%flt = true
      /\ (edge_t vertices start dir p1 p2 <=? #1)%flt = true
      /\ (edge_t2 vertices start dir p1 p2 >? #0)%flt = true.
Proof.
  unfold edge_accepted.
  destruct (edge_div vertices dir p1 p2 !=? #0)%flt;
    destruct (edge_t vertices start dir p1 p2 >? #0)%flt;
    destruct (edge_t vertices start dir p1 p2 <=? #1)%flt;
    destruct (edge_t2 vertices start dir p1 p2 >? #0)%flt; cbn; intuition congruence.
Qed.

Lemma edge_from_range (vertexCount p2 : Z) :
  0 <= p2 < vertexCount -> 0 <= edge_from vertexCount p2 < vertexCount.
Proof. unfold edge_from. destruct (Z.eqb_spec p2 0); lia. Qed.

Lemma edge_from_next (vertexCount p2 : Z) :
  0 <= p2 < vertexCount -> Z.rem (edge_from vertexCount p2 + 1) vertexCount = p2.
Proof.
  intros Hp2. unfold edge_from. destruct (Z.eqb_spec p2 0) as [->|Hne].
  - replace (vertexCount - 1 + 1) with vertexCount by lia. apply Z.rem_same. lia.
  - replace (p2 - 1 + 1) with p2 by lia. apply Z.rem_small. lia.
Qed.

(** C10.  When no edge passes the acceptance test, [calculateIntersection]
    returns with its three referenced outputs as they were before the call;
    and it changes them only when some edge is accepted. *)
Theorem calculateIntersection_frame {A : Arith} (vertices : Z -> Vector3)
    (start : Vector3) (dir : Vector2) (vertexCount : Z) (out : Hit) :
  ((forall p2, 0 <= p2 < vertexCount ->
      edge_accepted vertices start dir (edge_from vertexCount p2) p2 = false) ->
   calculateIntersection vertices start dir vertexCount out = out)
  /\ (calculateIntersection vertices start dir vertexCount out <> out ->
      exists p2, 0 <= p2 < vertexCount
        /\ edge_accepted vertices start dir (edge_from vertexCount p2) p2 = true).
Proof.
  split; [apply calculateIntersection_no_hit|].
  intros Hchanged.
  destruct (first_true_cases
              (fun p2 => edge_accepted vertices start dir (edge_from vertexCount p2) p2)
              vertexCount) as [Hno|(p2 & Hp2 & Hyes & _)].
  - exfalso. apply Hchanged. now apply calculateIntersection_no_hit.
  - now exists p2.
Qed.

Lemma calculateIntersection_frame_witness :
  (forall p2, 0 <= p2 < 4 ->
     edge_accepted Sample.square Sample.outside Sample.up (edge_from 4 p2) p2 = false)
  /\ calculateIntersection Sample.square Sample.outside Sample.up 4 Sample.stale = Sample.stale
  /\ calculateIntersection Sample.square Sample.centre Sample.up 4 Sample.stale <> Sample.stale
  /\ exists p2, 0 <= p2 < 4
       /\ edge_accepted Sample.square Sample.centre Sample.up (edge_from 4 p2) p2 = true.
Proof.
  assert (forall p2, 0 <= p2 < 4 ->
            edge_accepted Sample.square Sample.outside Sample.up (edge_from 4 p2) p2 = false)
    as Hno.
  { intros p2 Hp2.
    assert (p2 = 0 \/ p2 = 1 \/ p2 = 2 \/ p2 = 3) as [->|[->|[->| ->]]] by lia;
      vm_compute; reflexivity. }
  assert (calculateIntersection Sample.square Sample.centre Sample.up 4 Sample.stale
          <> Sample.stale) as Hchanged.
  { intros Heq. apply (f_equal outEdgeIndex) in Heq. vm_compute in Heq. discriminate. }
  split; [exact Hno|]. split; [|split; [exact Hchanged|]].
  - exact (proj1 (calculateIntersection_frame Sample.square Sample.outside Sample.up 4
                    Sample.stale) Hno).
  - exact (proj2 (calculateIntersection_frame Sample.square Sample.centre Sample.up 4
                    Sample.stale) Hchanged).
Defined.

(** In exact arithmetic [div] is the determinant, up to sign, of the system
    [start + v * dir = p1 + t * (p2 - p1)], and when it is not zero [t] and
    [t2] are the one solution of that system. *)
Lemma edge_parameters_solve_system (vertices : Z -> @Vector3 real_arith)
    (start : @Vector3 real_arith) (dir : @Vector2 real_arith) (p1 p2 : Z) :
  let p1x := v3_x (vertices p1) in
  let p1y := v3_y (vertices p1) in
  let p2x := v3_x (vertices p2) in
  let p2y := v3_y (vertices p2) in
  (edge_div vertices dir p1 p2
   = - (v2_x dir * (p2y - p1y) - v2_y dir * (p2x - p1x)))%R
  /\ (edge_div vertices dir p1 p2 <> 0%R ->
      forall t v : R,
        (v3_x start + v * v2_x dir = p1x + t * (p2x - p1x)
         /\ v3_y start + v * v2_y dir = p1y + t * (p2y - p1y))%R
        <-> t = edge_t vertices start dir p1 p2 /\ v = edge_t2 vertices start dir p1 p2).
Proof.
  intros p1x p1y p2x p2y. unfold edge_t, edge_t2, edge_div. cbn.
  fold p1x p1y p2x p2y.
  destruct start as [sx sy sz], dir as [dx dy]. cbn.
  split; [ring|]. intros Hdiv t v. split.
  - intros [Hx Hy]. split.
    + apply (Rmult_eq_reg_r (dx * (p1y - p2y) + dy * p2x - dy * p1x)%R); [|exact Hdiv].
      unfold Rdiv. rewrite Rmult_assoc, Rinv_l, Rmult_1_r by exact Hdiv. nra.
    + apply (Rmult_eq_reg_r (dx * (p1y - p2y) + dy * p2x - dy * p1x)%R); [|exact Hdiv].
      unfold Rdiv. rewrite Rmult_assoc, Rinv_l, Rmult_1_r by exact Hdiv. nra.
  - intros [-> ->]. split; field; exact Hdiv.
Qed.

(** ** A ray that no edge accepts *)

(** When no edge is accepted for ray [i], the first loop goes on with the
    indeterminate values of [edgeIndex], [edgeFraction] and [rayDistance]:
    the edge in use is the indeterminate index when that is in range, and 0
    only otherwise. *)
Lemma no_hit_edge_in_use {A : Arith} (rays : Z) (ind : Indeterminate)
    (vertices : Z -> Vector3) (vertexCount : Z) (centroid3d : Vector3) (i : Z) :
  0 <= i < rays ->
  (forall p2, 0 <= p2 < vertexCount ->
     edge_accepted vertices centroid3d (dirs rays ind i) (edge_from vertexCount p2) p2
     = false) ->
  let stale := ind_hit ind i in
  let edgeIndex :=
    if (outEdgeIndex stale <? 0) || (outEdgeIndex stale >=? vertexCount)
    then 0 else outEdgeIndex stale in
  ray_edge rays ind vertices vertexCount centroid3d i = edgeIndex
  /\ rayDist rays ind vertices vertexCount centroid3d i = outRayDist stale
  /\ rayHeight rays ind vertices vertexCount centroid3d i
     = (v3_z (vertices edgeIndex)
        + outEdgeFraction stale
          * (v3_z (vertices (Z.rem (edgeIndex + 1) vertexCount))
             - v3_z (vertices edgeIndex)))%flt.
Proof.
  intros Hi Hno stale edgeIndex.
  assert (ray_hit rays ind vertices vertexCount centroid3d i = stale) as Hhit
    by (unfold ray_hit; now apply calculateIntersection_no_hit).
  rewrite rayDist_cell, rayHeight_cell by assumption.
  unfold interpolated_height, ray_edge. rewrite Hhit. repeat split; reflexivity.
Qed.

(** C8, the code at an input on which it departs from the claim.  The run on
    the square with the centroid outside of it: the one ray, which points up
    from (5, 0), meets no edge; the locals hold edge index 1 and fraction 3,
    and the height stored is 4 + 3 * (8 - 4) = 16, taken from the edge 1 -> 2,
    where the edge 0 -> 1 gives 0 + 3 * (4 - 0) = 12.  The run completes. *)
Lemma no_hit_uses_indeterminate_edge :
  (forall p2, 0 <= p2 < 4 ->
     edge_accepted Sample.square Sample.outside (dirs 1 Sample.ind 0) (edge_from 4 p2) p2
     = false)
  /\ ray_edge 1 Sample.ind Sample.square 4 Sample.outside 0 = 1
  /\ rayHeight 1 Sample.ind Sample.square 4 Sample.outside 0 = Sample.f32 16
  /\ (v3_z (Sample.square 0)
      + outEdgeFraction Sample.stale * (v3_z (Sample.square 1) - v3_z (Sample.square 0)))%flt
     = Sample.f32 12
  /\ exists buf : VertexBuffer,
       createAmbientShadow 1 3 Sample.ind Sample.square 4 Sample.outside
         (Sample.f32 1) (Sample.f32 1) true []
       = Some (kVertexBufferMode_OnePolyRingShadow, buf).
Proof.
  split.
  { intros p2 Hp2.
    assert (p2 = 0 \/ p2 = 1 \/ p2 = 2 \/ p2 = 3) as [->|[->|[->| ->]]] by lia;
      vm_compute; reflexivity. }
  split; [vm_compute; reflexivity|]. split; [vm_compute; reflexivity|].
  split; [vm_compute; reflexivity|].
  destruct (createAmbientShadow_cells 1 3 Sample.ind Sample.square 4 Sample.outside
              (Sample.f32 1) (Sample.f32 1) true [])
    as (buf & E & _); [vm_compute; reflexivity|lia|].
  exists buf. exact E.
Qed.

(** ** The claims about calculateNormal *)

Lemma pre_post_index (rays i : Z) :
  0 <= i < rays ->
  Z.rem (i - 1 + rays) rays = (i - 1) mod rays
  /\ Z.rem (i + 1) rays = (i + 1) mod rays.
Proof.
  intros Hi. rewrite !Z.rem_mod_nonneg by lia. split; [|reflexivity].
  replace (i - 1 + rays) with (i - 1 + 1 * rays) by lia. apply Z_mod_plus_full.
Qed.

(** [calculateNormal], with the indices of the neighbours taken modulo
    [rays]. *)
Lemma calculateNormal_cases {A : Arith} (rays i : Z) (dir : Z -> Vector2)
    (rayDist : Z -> float) (normal : Vector2) :
  0 <= i < rays ->
  let pre := (i - 1) mod rays in
  let post := (i + 1) mod rays in
  let chord :=
    v2_sub (v2_scale (dir post) (rayDist post)) (v2_scale (dir pre) (rayDist pre)) in
  calculateNormal rays i dir rayDist normal
  = if (v2_length chord !=? #0)%flt
    then {| v2_x := (- v2_y (v2_normalize chord))%flt; v2_y := v2_x (v2_normalize chord) |}
    else normal.
Proof.
  intros Hi pre post chord. unfold calculateNormal.
  destruct (pre_post_index rays i Hi) as [-> ->]. reflexivity.
Qed.

Lemma v2_length_real (v : @Vector2 real_arith) :
  v2_length v = sqrt (v2_x v * v2_x v + v2_y v * v2_y v)%R.
Proof. reflexivity. Qed.

(** In exact arithmetic the chord between the points [dir * rayDist] is the
    chord between the intersection points [dir * rayDist + centroid2d] of the
    two rays: the centroid cancels. *)
Lemma chord_of_intersection_points (rays : Z) (ind : @Indeterminate real_arith)
    (vertices : Z -> @Vector3 real_arith) (vertexCount : Z)
    (centroid3d : @Vector3 real_arith) (pre post : Z) :
  v2_sub (intersection_at rays ind vertices vertexCount centroid3d post)
         (intersection_at rays ind vertices vertexCount centroid3d pre)
  = v2_sub
      (v2_scale (dirs rays ind post) (rayDist rays ind vertices vertexCount centroid3d post))
      (v2_scale (dirs rays ind pre) (rayDist rays ind vertices vertexCount centroid3d pre)).
Proof.
  unfold intersection_at, v2_sub, v2_add, v2_scale.
  apply vector2_eq; cbn [v2_x v2_y]; real_ops; ring.
Qed.

(** In exact arithmetic a normal that [calculateNormal] computes has length 1
    and is perpendicular to the chord. *)
Lemma calculateNormal_unit_perpendicular (rays i : Z) (dir : Z -> @Vector2 real_arith)
    (rayDist : Z -> R) (normal : @Vector2 real_arith) :
  0 <= i < rays ->
  let pre := (i - 1) mod rays in
  let post := (i + 1) mod rays in
  let chord :=
    v2_sub (v2_scale (dir post) (rayDist post)) (v2_scale (dir pre) (rayDist pre)) in
  let n := calculateNormal rays i dir rayDist normal in
  v2_length chord <> 0%R ->
  (v2_x n * v2_x n + v2_y n * v2_y n = 1
   /\ v2_x n * v2_x chord + v2_y n * v2_y chord = 0)%R.
Proof.
  intros Hi pre post chord n Hlen. unfold n.
  rewrite calculateNormal_cases by exact Hi. cbv zeta. fold pre post chord.
  assert ((v2_length chord !=? #0)%flt = true) as ->.
  { real_ops. unfold Rneb.
    destruct (Req_dec_T (v2_length chord) 0); [contradiction|reflexivity]. }
  cbn [v2_x v2_y]. unfold v2_normalize. cbn [v2_x v2_y]. real_ops.
  set (len := v2_length chord) in *.
  assert (len * len = v2_x chord * v2_x chord + v2_y chord * v2_y chord)%R as Hsq.
  { unfold len. rewrite v2_length_real. apply sqrt_sqrt.
    pose proof (Rle_0_sqr (v2_x chord)). pose proof (Rle_0_sqr (v2_y chord)).
    unfold Rsqr in *. lra. }
  split.
  - transitivity ((v2_x chord * v2_x chord + v2_y chord * v2_y chord) / (len * len))%R.
    + field. exact Hlen.
    + rewrite <- Hsq. field. exact Hlen.
  - field. exact Hlen.
Qed.

(** A run of [calculateNormal] in binary32 on four rays of length 1 that
    point up, right, down and left: the chord of ray 0 goes from (-1, 0) to
    (1, 0), and the normal is (-0, 1). *)
Lemma calculateNormal_four_rays :
  calculateNormal (A := Sample.arith) 4 0
    (array_of (Sample.vec2 0 0)
       [Sample.vec2 0 1; Sample.vec2 1 0; Sample.vec2 0 (-1); Sample.vec2 (-1) 0])
    (fun _ => Sample.f32 1) (Sample.vec2 1 0)
  = mkVector2 (A := Sample.arith) (S754_zero true) (Sample.f32 1).
Proof. apply vector2_eq; vm_compute; reflexivity. Qed.

(** ** The claims about calculateRayDirections, in exact arithmetic *)

Lemma deltaAngle_real (rays : Z) :
  deltaAngle (A := real_arith) rays = (2 * PI / IZR rays)%R.
Proof. reflexivity. Qed.

Lemma calculateRayDirections_real (rays i : Z) (dir : Z -> @Vector2 real_arith) :
  0 <= i < rays ->
  calculateRayDirections rays dir i
  = mkVector2 (A := real_arith)
      (sin (2 * PI * IZR i / IZR rays)) (cos (2 * PI * IZR i / IZR rays)).
Proof.
  intros Hi. rewrite calculateRayDirections_cell, bool_decide_eq_true_2 by lia.
  rewrite deltaAngle_real. cbn [fmul int_to_float real_arith sinf cosf].
  assert (IZR rays <> 0%R) by (apply not_0_IZR; lia).
  f_equal; f_equal; field; assumption.
Qed.

(** The angle of the ray after ray [i], taken modulo the full turn. *)
Lemma next_angle (rays i : Z) :
  0 <= i < rays ->
  (sin (2 * PI * IZR ((i + 1) mod rays) / IZR rays)
   = sin (2 * PI * IZR i / IZR rays + 2 * PI / IZR rays)
   /\ cos (2 * PI * IZR ((i + 1) mod rays) / IZR rays)
      = cos (2 * PI * IZR i / IZR rays + 2 * PI / IZR rays))%R.
Proof.
  intros Hi. assert (IZR rays <> 0%R) as Hn by (apply not_0_IZR; lia).
  destruct (decide (i + 1 = rays)) as [Hlast|Hmid].
  - rewrite Hlast, Z_mod_same_full.
    replace (2 * PI * IZR i / IZR rays + 2 * PI / IZR rays)%R with (2 * PI)%R.
    + replace (2 * PI * 0 / IZR rays)%R with 0%R by (field; exact Hn).
      now rewrite sin_0, cos_0, sin_2PI, cos_2PI.
    + rewrite <- Hlast, plus_IZR. field. rewrite <- plus_IZR, Hlast. exact Hn.
  - rewrite Z.mod_small by lia. rewrite plus_IZR.
    split; f_equal; field; exact Hn.
Qed.

(** C7, in exact arithmetic and as the code computes.  For [rays > 0],
    [calculateRayDirections] writes the cells [0 .. rays) of [dir] and no
    other, and cell [i] becomes
    [(sinf (deltaAngle * i), cosf (deltaAngle * i))] with
    [deltaAngle = 2 * M_PI / rays] rounded to [float]: this holds in every
    arithmetic, binary32 included.  In exact arithmetic cell [i] is
    [(sin (2 pi i / rays), cos (2 pi i / rays))], every such vector has length
    1, and the vector of the next ray (the first ray after the last) is the
    vector of ray [i] turned clockwise by [2 pi / rays]. *)
Theorem calculateRayDirections_unit_circle {A : Arith} (rays : Z)
    (dir : Z -> Vector2) (dirR : Z -> @Vector2 real_arith) :
  0 < rays ->
  let out := calculateRayDirections rays dirR in
  let delta := (2 * PI / IZR rays)%R in
  (forall i,
     calculateRayDirections rays dir i
     = if bool_decide (0 <= i < rays)
       then {| v2_x := sinf (deltaAngle rays * #i)%flt;
               v2_y := cosf (deltaAngle rays * #i)%flt |}
       else dir i)
  /\ (forall i, 0 <= i < rays ->
        out i = mkVector2 (A := real_arith)
                  (sin (2 * PI * IZR i / IZR rays)) (cos (2 * PI * IZR i / IZR rays)))
  /\ (forall i, ~ 0 <= i < rays -> out i = dirR i)
  /\ (forall i, 0 <= i < rays -> v2_length (out i) = 1%R)
  /\ (forall i, 0 <= i < rays ->
        out ((i + 1) mod rays)
        = mkVector2 (A := real_arith)
            (v2_x (out i) * cos delta + v2_y (out i) * sin delta)%R
            (v2_y (out i) * cos delta - v2_x (out i) * sin delta)%R).
Proof.
  intros Hrays out delta. unfold out. split; [|repeat split].
  - intros i. apply calculateRayDirections_cell.
  - intros i Hi. now apply calculateRayDirections_real.
  - intros i Hi. rewrite calculateRayDirections_cell.
    now rewrite bool_decide_eq_false_2.
  - intros i Hi. rewrite calculateRayDirections_real, v2_length_real by exact Hi.
    cbn [v2_x v2_y].
    replace (sin (2 * PI * IZR i / IZR rays) * sin (2 * PI * IZR i / IZR rays)
             + cos (2 * PI * IZR i / IZR rays) * cos (2 * PI * IZR i / IZR rays))%R
      with 1%R; [apply sqrt_1|].
    pose proof (sin2_cos2 (2 * PI * IZR i / IZR rays)) as H. unfold Rsqr in H. lra.
  - intros i Hi.
    rewrite (calculateRayDirections_real rays ((i + 1) mod rays))
      by (apply Z.mod_pos_bound; lia).
    rewrite (calculateRayDirections_real rays i) by exact Hi. cbn [v2_x v2_y].
    destruct (next_angle rays i Hi) as [-> ->].
    rewrite sin_plus, cos_plus. fold delta. f_equal; ring.
Qed.

Lemma calculateRayDirections_unit_circle_witness :
  0 < 4
  /\ calculateRayDirections (A := Sample.arith) 1 (fun _ => Sample.vec2 0 0) 0
     = Sample.vec2 0 1
  /\ v2_length
       (calculateRayDirections (A := real_arith) 4
          (fun _ => mkVector2 (A := real_arith) 0%R 0%R) 1)
     = 1%R.
Proof.
  split; [lia|]. split.
  - rewrite (proj1 (calculateRayDirections_unit_circle (A := Sample.arith) 1
                      (fun _ => Sample.vec2 0 0)
                      (fun _ => mkVector2 (A := real_arith) 0%R 0%R) ltac:(lia)) 0).
    apply vector2_eq; vm_compute; reflexivity.
  - exact (proj1 (proj2 (proj2 (proj2
             (calculateRayDirections_unit_circle (A := Sample.arith) 4
                (fun _ => Sample.vec2 0 0)
                (fun _ => mkVector2 (A := real_arith) 0%R 0%R) ltac:(lia))))) 1 ltac:(lia)).
Defined.

(** ** The claims about the alpha of the inner ring *)

Lemma opacity_real (height heightFactor : R) :
  opacity (A := real_arith) height heightFactor = (1 / (1 + height * heightFactor))%R.
Proof. reflexivity. Qed.




(** In binary32 the decrease is not strict: the products 0 and 2^-30 both
    give alpha 1. *)
Lemma opacity_binary32_not_strict :
  let tiny : @float Sample.arith := S754_finite false 8388608 (-53) in
  (Sample.f32 0 <? tiny)%flt = true
  /\ (Sample.f32 0 * Sample.f32 1 <? tiny * Sample.f32 1)%flt = true
  /\ opacity (A := Sample.arith) tiny (Sample.f32 1) = Sample.f32 1
  /\ opacity (A := Sample.arith) (Sample.f32 0) (Sample.f32 1) = Sample.f32 1.
Proof. repeat split; vm_compute; reflexivity. Qed.

(** In binary32 the alpha is 1 when the product is a zero, and 0 when the
    product is infinite. *)
Lemma opacity_binary32_endpoints (sinf cosf : spec_float -> spec_float)
    (height heightFactor : spec_float) :
  ((exists s, SFmul 24 128 height heightFactor = S754_zero s) ->
   opacity (A := binary32_arith sinf cosf) height heightFactor = b32_of_Z 1)
  /\ (SFmul 24 128 height heightFactor = S754_infinity false ->
      opacity (A := binary32_arith sinf cosf) height heightFactor = S754_zero false).
Proof.
  unfold opacity. cbn [fadd fmul int_to_float int_to_double float_to_double
                       double_to_float ddiv binary32_arith].
  split.
  - intros [s ->]. destruct s; vm_compute; reflexivity.
  - intros ->. vm_compute. reflexivity.
Qed.

(** * Further properties of the code *)

(** ** What a hit satisfies *)

(** X1.  [calculateIntersection] either meets no accepted edge and leaves
    its outputs as they were, or reports an edge index within
    [0 .. vertexCount), a fraction [t] with [t > 0] and [t <= 1], and a
    distance [t2 > 0], the comparisons being those of the code. *)
Theorem calculateIntersection_hit_in_range {A : Arith} (vertices : Z -> Vector3)
    (start : Vector3) (dir : Vector2) (vertexCount : Z) (out : Hit) :
  let hit := calculateIntersection vertices start dir vertexCount out in
  ((forall p2, 0 <= p2 < vertexCount ->
      edge_accepted vertices start dir (edge_from vertexCount p2) p2 = false)
   /\ hit = out)
  \/ (0 <= outEdgeIndex hit < vertexCount
      /\ (outEdgeFraction hit >? #0)%flt = true
      /\ (outEdgeFraction hit <=? #1)%flt = true
      /\ (outRayDist hit >? #0)%flt = true).
Proof.
  intros hit. unfold hit.
  destruct (first_true_cases
              (fun p2 => edge_accepted vertices start dir (edge_from vertexCount p2) p2)
              vertexCount) as [Hno|(p2 & Hp2 & Hyes & Hfirst)].
  - left. split; [exact Hno|]. now apply calculateIntersection_no_hit.
  - right. rewrite (calculateIntersection_first_hit vertices start dir vertexCount out p2)
      by assumption.
    apply edge_accepted_true in Hyes as (_ & Ht0 & Ht1 & Hv).
    cbn [hit_of outEdgeIndex outEdgeFraction outRayDist].
    split; [now apply edge_from_range|]. now repeat split.
Qed.

(** ** When the stores stay inside the allocation *)

Section LoopRounds.
Context {S : Type}.

(** Bodies that agree on the rounds [0 .. n) give the same loop. *)
Lemma forM_ext (n : Z) (body body' : Z -> S -> option S) (s : S) :
  (forall i a, 0 <= i < n -> body i a = body' i a) ->
  forM n body s = forM n body' s.
Proof.
  intros Hext.
  destruct (Z.le_gt_cases n 0) as [Hn|Hn]; [now rewrite !forM_nonpos by lia|].
  assert (forall k : nat, Z.of_nat k <= n ->
            forM (Z.of_nat k) body s = forM (Z.of_nat k) body' s) as Hk.
  { induction k as [|k IH]; intros Hle.
    - now rewrite !forM_nonpos by lia.
    - replace (Z.of_nat (Datatypes.S k)) with (Z.of_nat k + 1) by lia.
      rewrite !forM_succ, IH by lia.
      destruct (forM (Z.of_nat k) body' s) as [a|]; [|reflexivity].
      cbn [mbind option_bind]. apply Hext. lia. }
  specialize (Hk (Z.to_nat n)). rewrite Z2Nat.id in Hk by lia. apply Hk. lia.
Qed.

(** In a loop that completes, every round ran, and ran on a state that the
    rounds before it left. *)
Lemma forM_rounds (Q : S -> Prop) (n : Z) (body : Z -> S -> option S) (s s' : S) :
  Q s ->
  (forall i a b, Q a -> body i a = Some b -> Q b) ->
  forM n body s = Some s' ->
  forall i, 0 <= i < n -> exists a b, Q a /\ body i a = Some b.
Proof.
  intros H0 Hstep Hrun i Hi.
  assert (forall k : nat, forall r, forM (Z.of_nat k) body s = Some r ->
            forall j, 0 <= j < Z.of_nat k -> exists a b, Q a /\ body j a = Some b) as Hk.
  { induction k as [|k IH]; intros r Hr j Hj; [lia|].
    replace (Z.of_nat (Datatypes.S k)) with (Z.of_nat k + 1) in Hr by lia.
    rewrite forM_succ in Hr by lia.
    destruct (forM (Z.of_nat k) body s) as [a|] eqn:Ea; [|discriminate].
    cbn [mbind option_bind] in Hr.
    destruct (decide (j = Z.of_nat k)) as [->|Hne].
    - exists a, r. split; [|exact Hr].
      exact (forM_preserves Q (Z.of_nat k) body s a H0 Hstep Ea).
    - apply (IH a eq_refl). lia. }
  apply (Hk (Z.to_nat n) s'); [|lia]. now rewrite Z2Nat.id by lia.
Qed.

End LoopRounds.

Section CapacityProps.
Context {A : Arith}.
Variable rays capacity : Z.
Variable ind : Indeterminate.
Variable vertices : Z -> Vector3.
Variable vertexCount : Z.
Variable centroid3d : Vector3.
Variable heightFactor geomFactor : float.

Lemma store_rings_length (i : Z) (a b : list (option AlphaVertex)) :
  store_rings rays ind vertices vertexCount centroid3d heightFactor geomFactor i a = Some b ->
  length b = length a.
Proof.
  rewrite store_rings_stores.
  destruct (store i _ a) as [a1|] eqn:Ea; [|discriminate]. cbn [mbind option_bind].
  intros Eb. apply store_length in Ea, Eb. congruence.
Qed.

(** With fewer than [2 * rays] cells the loop over the rays stores outside
    the allocation. *)
Lemma ring_loop_overflow (buf0 : list (option AlphaVertex)) :
  0 < rays ->
  Z.of_nat (length buf0) < 2 * rays ->
  forM rays (store_rings rays ind vertices vertexCount centroid3d heightFactor geomFactor)
    buf0 = None.
Proof.
  intros Hrays Hcap.
  destruct (forM rays
              (store_rings rays ind vertices vertexCount centroid3d heightFactor geomFactor)
              buf0) as [buf|] eqn:E; [|reflexivity].
  exfalso.
  destruct (forM_rounds (fun b : list (option AlphaVertex) => length b = length buf0)
              rays
              (store_rings rays ind vertices vertexCount centroid3d heightFactor geomFactor)
              buf0 buf eq_refl) with (i := rays - 1) as (a & b & Ha & Hb);
    [intros i a b Ha Hb; apply store_rings_length in Hb; congruence|exact E|lia|].
  rewrite store_rings_stores in Hb.
  destruct (store (rays - 1) _ a) as [a1|] eqn:Ea; [|discriminate].
  cbn [mbind option_bind] in Hb. apply store_length in Ea.
  rewrite store_out_of_range in Hb; [discriminate|]. unfold VertexBuffer in *. lia.
Qed.

(** With fewer than [3 * rays] cells the loop of the non-opaque case stores
    outside the allocation. *)
Lemma centroid_loop_overflow (v : AlphaVertex) (buf0 : list (option AlphaVertex)) :
  0 < rays ->
  Z.of_nat (length buf0) < 3 * rays ->
  forM rays (fun rayIndex => store (2 * rays + rayIndex) v) buf0 = None.
Proof.
  intros Hrays Hcap.
  destruct (forM rays (fun rayIndex => store (2 * rays + rayIndex) v) buf0)
    as [buf|] eqn:E; [|reflexivity].
  exfalso.
  destruct (forM_rounds (fun b : list (option AlphaVertex) => length b = length buf0)
              rays (fun rayIndex => store (2 * rays + rayIndex) v)
              buf0 buf eq_refl) with (i := rays - 1) as (a & b & Ha & Hb);
    [intros i a b Ha Hb; apply store_length in Hb; congruence|exact E|lia|].
  rewrite store_out_of_range in Hb; [discriminate|]. unfold VertexBuffer in *. lia.
Qed.

(** X2.  On inputs that pass the validation, every store of
    [createAmbientShadow] falls inside the allocation exactly when
    SHADOW_VERTEX_COUNT is at least [2 * rays] for an opaque and [3 * rays] for
    a non-opaque caster; with a smaller constant some store falls outside of
    it. *)
Theorem createAmbientShadow_completes_iff (isCasterOpaque : bool) (buf0 : VertexBuffer) :
  invalid_input rays vertexCount heightFactor geomFactor = false ->
  (is_Some (createAmbientShadow rays capacity ind vertices vertexCount centroid3d
              heightFactor geomFactor isCasterOpaque buf0)
   <-> (if isCasterOpaque then 2 else 3) * rays <= capacity).
Proof.
  intros Hvalid. pose proof (invalid_input_false_rays _ _ _ _ Hvalid) as Hrays. split.
  - intros [r Hr].
    destruct (Z.le_gt_cases ((if isCasterOpaque then 2 else 3) * rays) capacity)
      as [Hle|Hgt]; [exact Hle|exfalso].
    revert Hr. unfold createAmbientShadow. rewrite Hvalid.
    destruct (Z.le_gt_cases (2 * rays) capacity) as [H2|H2].
    + destruct isCasterOpaque; [lia|].
      destruct (ring_loop rays ind vertices vertexCount centroid3d heightFactor geomFactor
                  (alloc capacity)) as (buf1 & E1 & Hlen1 & _);
        [lia|rewrite length_alloc; lia|].
      rewrite E1. cbn [mbind option_bind negb].
      rewrite centroid_loop_overflow; [discriminate|lia|].
      rewrite Hlen1, length_alloc. lia.
    + rewrite ring_loop_overflow; [discriminate|lia|]. rewrite length_alloc. lia.
  - intros Hcap.
    destruct (createAmbientShadow_cells rays capacity ind vertices vertexCount centroid3d
                heightFactor geomFactor isCasterOpaque buf0 Hvalid Hcap)
      as (buf & E & _).
    rewrite E. eexists. reflexivity.
Qed.

End CapacityProps.

Lemma createAmbientShadow_completes_iff_witness :
  invalid_input (A := Sample.arith) 1 4 (Sample.f32 1) (Sample.f32 1) = false
  /\ createAmbientShadow 1 2 Sample.ind Sample.square 4 Sample.centre
       (Sample.f32 1) (Sample.f32 1) false [] = None.
Proof.
  assert (invalid_input (A := Sample.arith) 1 4 (Sample.f32 1) (Sample.f32 1) = false)
    as Hvalid by (vm_compute; reflexivity).
  split; [exact Hvalid|].
  pose proof (createAmbientShadow_completes_iff 1 2 Sample.ind Sample.square 4
                Sample.centre (Sample.f32 1) (Sample.f32 1) false [] Hvalid) as [Hcap _].
  destruct (createAmbientShadow 1 2 Sample.ind Sample.square 4 Sample.centre
              (Sample.f32 1) (Sample.f32 1) false []) as [r|]; [|reflexivity].
  exfalso. assert (3 * 1 <= 2) by (apply Hcap; eexists; reflexivity). lia.
Defined.

(** ** What a run reads *)

Section Footprint.
Context {A : Arith}.

Section Edges.
Variables vertices vertices' : Z -> Vector3.
Variable start : Vector3.
Variable dir : Vector2.

Lemma edge_div_ext (p1 p2 : Z) :
  vertices p1 = vertices' p1 -> vertices p2 = vertices' p2 ->
  edge_div vertices dir p1 p2 = edge_div vertices' dir p1 p2.
Proof. intros H1 H2. unfold edge_div. now rewrite H1, H2. Qed.

Lemma edge_t_ext (p1 p2 : Z) :
  vertices p1 = vertices' p1 -> vertices p2 = vertices' p2 ->
  edge_t vertices start dir p1 p2 = edge_t vertices' start dir p1 p2.
Proof.
  intros H1 H2. unfold edge_t. now rewrite (edge_div_ext p1 p2 H1 H2), H1.
Qed.

Lemma edge_t2_ext (p1 p2 : Z) :
  vertices p1 = vertices' p1 -> vertices p2 = vertices' p2 ->
  edge_t2 vertices start dir p1 p2 = edge_t2 vertices' start dir p1 p2.
Proof.
  intros H1 H2. unfold edge_t2. now rewrite (edge_div_ext p1 p2 H1 H2), H1, H2.
Qed.

Lemma edge_accepted_ext (p1 p2 : Z) :
  vertices p1 = vertices' p1 -> vertices p2 = vertices' p2 ->
  edge_accepted vertices start dir p1 p2 = edge_accepted vertices' start dir p1 p2.
Proof.
  intros H1 H2. unfold edge_accepted.
  now rewrite (edge_div_ext p1 p2 H1 H2), (edge_t_ext p1 p2 H1 H2), (edge_t2_ext p1 p2 H1 H2).
Qed.

(** The loop reads the vertices [p1] and [p2 .. p2 + todo). *)
Lemma calculateIntersection_loop_ext (vertexCount : Z) (todo : nat) :
  forall (p1 p2 : Z) (out : Hit),
    (forall j, 0 <= j < vertexCount -> vertices j = vertices' j) ->
    0 <= p1 < vertexCount -> 0 <= p2 -> p2 + Z.of_nat todo <= vertexCount ->
    calculateIntersection_loop vertices start dir todo p1 p2 out
    = calculateIntersection_loop vertices' start dir todo p1 p2 out.
Proof.
  induction todo as [|todo IH]; intros p1 p2 out Hv Hp1 Hp2 Hle; [reflexivity|].
  rewrite !loop_step. unfold hit_of.
  rewrite (edge_accepted_ext p1 p2), (edge_t_ext p1 p2), (edge_t2_ext p1 p2)
    by (apply Hv; lia).
  destruct (edge_accepted vertices' start dir p1 p2); [reflexivity|].
  apply IH; try assumption; lia.
Qed.

(** [calculateIntersection] reads [vertices[0 .. vertexCount)] only. *)
Lemma calculateIntersection_ext (vertexCount : Z) (out : Hit) :
  (forall j, 0 <= j < vertexCount -> vertices j = vertices' j) ->
  calculateIntersection vertices start dir vertexCount out
  = calculateIntersection vertices' start dir vertexCount out.
Proof.
  intros Hv. unfold calculateIntersection.
  destruct (Z.le_gt_cases vertexCount 0) as [Hn|Hn].
  - replace (Z.to_nat vertexCount) with O by lia. reflexivity.
  - apply (calculateIntersection_loop_ext vertexCount); try assumption; lia.
Qed.

(** Once some edge is accepted, the values the outputs held do not
    matter. *)
Lemma calculateIntersection_hit_ignores_out (vertexCount : Z) (out out' : Hit) :
  (exists p2, 0 <= p2 < vertexCount
     /\ edge_accepted vertices start dir (edge_from vertexCount p2) p2 = true) ->
  calculateIntersection vertices start dir vertexCount out
  = calculateIntersection vertices start dir vertexCount out'.
Proof.
  intros (q & Hq & Hyes).
  destruct (first_true_cases
              (fun p2 => edge_accepted vertices start dir (edge_from vertexCount p2) p2)
              vertexCount) as [Hno|(p2 & Hp2 & Hacc & Hfirst)].
  - rewrite Hno in Hyes by exact Hq. discriminate.
  - now rewrite !(calculateIntersection_first_hit vertices start dir vertexCount _ p2).
Qed.

End Edges.

Lemma calculateNormal_ext (rays i : Z) (dir dir' : Z -> Vector2)
    (rayDist rayDist' : Z -> float) (normal : Vector2) :
  0 <= i < rays ->
  (forall j, 0 <= j < rays -> dir j = dir' j) ->
  (forall j, 0 <= j < rays -> rayDist j = rayDist' j) ->
  calculateNormal rays i dir rayDist normal = calculateNormal rays i dir' rayDist' normal.
Proof.
  intros Hi Hd Hr. rewrite !calculateNormal_cases by exact Hi. cbv zeta.
  rewrite !(Hd ((i - 1) mod rays)), !(Hd ((i + 1) mod rays)),
          !(Hr ((i - 1) mod rays)), !(Hr ((i + 1) mod rays))
    by (apply Z.mod_pos_bound; lia).
  reflexivity.
Qed.

Variable rays capacity : Z.
Variables ind ind' : Indeterminate.
Variables vertices vertices' : Z -> Vector3.
Variable vertexCount : Z.
Variable centroid3d : Vector3.
Variable heightFactor geomFactor : float.

Hypothesis vertexCount_pos : 0 < vertexCount.
Hypothesis same_vertices : forall j, 0 <= j < vertexCount -> vertices j = vertices' j.
Hypothesis same_hits : forall i, 0 <= i < rays ->
  ind_hit ind i = ind_hit ind' i
  \/ exists p2, 0 <= p2 < vertexCount
       /\ edge_accepted vertices centroid3d (dirs rays ind i)
            (edge_from vertexCount p2) p2 = true.

Lemma dirs_same (i : Z) : 0 <= i < rays -> dirs rays ind i = dirs rays ind' i.
Proof. intros Hi. now rewrite !dirs_cell. Qed.

Lemma ray_hit_same (i : Z) :
  0 <= i < rays ->
  ray_hit rays ind vertices vertexCount centroid3d i
  = ray_hit rays ind' vertices' vertexCount centroid3d i.
Proof.
  intros Hi. unfold ray_hit. rewrite <- (dirs_same i Hi).
  rewrite <- (calculateIntersection_ext vertices vertices' _ _ _ _ same_vertices).
  destruct (same_hits i Hi) as [->|Hacc]; [reflexivity|].
  now apply calculateIntersection_hit_ignores_out.
Qed.

(** The range check leaves an index of the polygon, and so is the index
    after it. *)
Lemma ray_edge_range (i : Z) :
  0 <= ray_edge rays ind vertices vertexCount centroid3d i < vertexCount
  /\ 0 <= Z.rem (ray_edge rays ind vertices vertexCount centroid3d i + 1) vertexCount
     < vertexCount.
Proof.
  assert (0 <= ray_edge rays ind vertices vertexCount centroid3d i < vertexCount) as He.
  { unfold ray_edge.
    destruct (Z.ltb_spec (outEdgeIndex (ray_hit rays ind vertices vertexCount centroid3d i)) 0),
             (Z.geb_spec (outEdgeIndex (ray_hit rays ind vertices vertexCount centroid3d i))
                vertexCount); cbn [orb]; lia. }
  split; [exact He|]. rewrite Z.rem_mod_nonneg by lia. apply Z.mod_pos_bound. lia.
Qed.

Lemma interpolated_height_same (i : Z) :
  0 <= i < rays ->
  interpolated_height rays ind vertices vertexCount centroid3d i
  = interpolated_height rays ind' vertices' vertexCount centroid3d i.
Proof.
  intros Hi. pose proof (ray_edge_range i) as [He Hn].
  unfold interpolated_height in *. unfold ray_edge in *.
  rewrite <- (ray_hit_same i Hi).
  now rewrite <- !same_vertices by assumption.
Qed.

Lemma rayDist_same (i : Z) :
  0 <= i < rays ->
  rayDist rays ind vertices vertexCount centroid3d i
  = rayDist rays ind' vertices' vertexCount centroid3d i.
Proof. intros Hi. now rewrite !rayDist_cell, ray_hit_same. Qed.

Lemma rayHeight_same (i : Z) :
  0 <= i < rays ->
  rayHeight rays ind vertices vertexCount centroid3d i
  = rayHeight rays ind' vertices' vertexCount centroid3d i.
Proof. intros Hi. now rewrite !rayHeight_cell, interpolated_height_same. Qed.

Lemma store_rings_same (i : Z) (buf : list (option AlphaVertex)) :
  0 <= i < rays ->
  store_rings rays ind vertices vertexCount centroid3d heightFactor geomFactor i buf
  = store_rings rays ind' vertices' vertexCount centroid3d heightFactor geomFactor i buf.
Proof.
  intros Hi. unfold store_rings.
  rewrite (calculateNormal_ext rays i (dirs rays ind) (dirs rays ind')
             (rayDist rays ind vertices vertexCount centroid3d)
             (rayDist rays ind' vertices' vertexCount centroid3d))
    by (first [exact Hi | exact dirs_same | exact rayDist_same]).
  now rewrite (dirs_same i Hi), (rayDist_same i Hi), (rayHeight_same i Hi).
Qed.

(** The run reads the polygon at [vertices[0 .. vertexCount)] only, no cell
    of [dir], [rayDist] or [rayHeight] that it has not written, and the
    uninitialised locals of a round only when the ray of that round meets
    no accepted edge. *)
Lemma createAmbientShadow_same (isCasterOpaque : bool) (buf0 : VertexBuffer) :
  createAmbientShadow rays capacity ind vertices vertexCount centroid3d
    heightFactor geomFactor isCasterOpaque buf0
  = createAmbientShadow rays capacity ind' vertices' vertexCount centroid3d
      heightFactor geomFactor isCasterOpaque buf0.
Proof.
  unfold createAmbientShadow.
  destruct (invalid_input rays vertexCount heightFactor geomFactor); [reflexivity|].
  now rewrite (forM_ext rays _ _ (alloc capacity) (fun i a Hi => store_rings_same i a Hi)).
Qed.

End Footprint.

(** X3.  [createAmbientShadow] reads the polygon only at
    [vertices[0 .. vertexCount)], also when the locals of a round keep
    indeterminate values: two arrays that agree on these cells give the same
    mode and the same buffer. *)
Theorem createAmbientShadow_reads_vertices_in_bounds {A : Arith} (rays capacity : Z)
    (ind : Indeterminate) (vertices vertices' : Z -> Vector3) (vertexCount : Z)
    (centroid3d : Vector3) (heightFactor geomFactor : float)
    (isCasterOpaque : bool) (buf0 : VertexBuffer) :
  (forall j, 0 <= j < vertexCount -> vertices j = vertices' j) ->
  createAmbientShadow rays capacity ind vertices vertexCount centroid3d
    heightFactor geomFactor isCasterOpaque buf0
  = createAmbientShadow rays capacity ind vertices' vertexCount centroid3d
      heightFactor geomFactor isCasterOpaque buf0.
Proof.
  intros Hv.
  destruct (Z.le_gt_cases vertexCount 0) as [Hn|Hn].
  - unfold createAmbientShadow, invalid_input.
    destruct (Z.ltb_spec vertexCount 3); [reflexivity|lia].
  - apply createAmbientShadow_same; [exact Hn|exact Hv|]. intros i Hi. now left.
Qed.

Lemma createAmbientShadow_reads_vertices_in_bounds_witness :
  (forall j, 0 <= j < 4 ->
     Sample.square j
     = array_of (Sample.vec3 9 9 9)
         [Sample.vec3 (-1) (-1) 0; Sample.vec3 1 (-1) 4; Sample.vec3 1 1 8;
          Sample.vec3 (-1) 1 12] j)
  /\ createAmbientShadow 1 3 Sample.ind Sample.square 4 Sample.outside
       (Sample.f32 1) (Sample.f32 1) true []
     = createAmbientShadow 1 3 Sample.ind
         (array_of (Sample.vec3 9 9 9)
            [Sample.vec3 (-1) (-1) 0; Sample.vec3 1 (-1) 4; Sample.vec3 1 1 8;
             Sample.vec3 (-1) 1 12]) 4 Sample.outside
         (Sample.f32 1) (Sample.f32 1) true [].
Proof.
  assert (forall j, 0 <= j < 4 ->
            Sample.square j
            = array_of (Sample.vec3 9 9 9)
                [Sample.vec3 (-1) (-1) 0; Sample.vec3 1 (-1) 4; Sample.vec3 1 1 8;
                 Sample.vec3 (-1) 1 12] j) as Hv.
  { intros j Hj.
    assert (j = 0 \/ j = 1 \/ j = 2 \/ j = 3) as [->|[->|[->| ->]]] by lia; reflexivity. }
  split; [exact Hv|].
  apply (createAmbientShadow_reads_vertices_in_bounds 1 3 Sample.ind Sample.square _ 4).
  exact Hv.
Defined.

(** X4.  [createAmbientShadow] reads no cell of [dir], [rayDist] or
    [rayHeight] before writing it, and it reads the uninitialised locals
    [edgeIndex], [edgeFraction] and [rayDistance] of a round only when the ray
    of that round meets no accepted edge: when every ray meets one, the result
    is the same whatever the indeterminate storage holds. *)
Theorem createAmbientShadow_ignores_indeterminate {A : Arith} (rays capacity : Z)
    (ind ind' : Indeterminate) (vertices : Z -> Vector3) (vertexCount : Z)
    (centroid3d : Vector3) (heightFactor geomFactor : float)
    (isCasterOpaque : bool) (buf0 : VertexBuffer) :
  (forall i, 0 <= i < rays ->
     ind_hit ind i = ind_hit ind' i
     \/ exists p2, 0 <= p2 < vertexCount
          /\ edge_accepted vertices centroid3d (dirs rays ind i)
               (edge_from vertexCount p2) p2 = true) ->
  createAmbientShadow rays capacity ind vertices vertexCount centroid3d
    heightFactor geomFactor isCasterOpaque buf0
  = createAmbientShadow rays capacity ind' vertices vertexCount centroid3d
      heightFactor geomFactor isCasterOpaque buf0.
Proof.
  intros Hhits.
  destruct (Z.le_gt_cases vertexCount 0) as [Hn|Hn].
  - unfold createAmbientShadow, invalid_input.
    destruct (Z.ltb_spec vertexCount 3); [reflexivity|lia].
  - apply createAmbientShadow_same; [exact Hn|reflexivity|exact Hhits].
Qed.

Lemma createAmbientShadow_ignores_indeterminate_witness :
  (forall i, 0 <= i < 1 ->
     ind_hit Sample.ind i = ind_hit MoreSamples.other_ind i
     \/ exists p2, 0 <= p2 < 4
          /\ edge_accepted Sample.square Sample.centre (dirs 1 Sample.ind i)
               (edge_from 4 p2) p2 = true)
  /\ createAmbientShadow 1 3 Sample.ind Sample.square 4 Sample.centre
       (Sample.f32 1) (Sample.f32 1) false []
     = createAmbientShadow 1 3 MoreSamples.other_ind Sample.square 4 Sample.centre
         (Sample.f32 1) (Sample.f32 1) false [].
Proof.
  assert (forall i, 0 <= i < 1 ->
            ind_hit Sample.ind i = ind_hit MoreSamples.other_ind i
            \/ exists p2, 0 <= p2 < 4
                 /\ edge_accepted Sample.square Sample.centre (dirs 1 Sample.ind i)
                      (edge_from 4 p2) p2 = true) as Hhits.
  { intros i Hi. assert (i = 0) as -> by lia. right. exists 3.
    split; [lia|]. vm_compute. reflexivity. }
  split; [exact Hhits|].
  apply (createAmbientShadow_ignores_indeterminate 1 3 Sample.ind MoreSamples.other_ind).
  exact Hhits.
Defined.

(** ** The opaque and the non-opaque run *)

(** X5.  On valid inputs the run for a non-opaque caster stores what the run
    for an opaque caster stores, and the third ring besides: the two buffers
    have the same length and agree on every cell outside
    [2 * rays .. 3 * rays), which the opaque run leaves unwritten. *)
Theorem createAmbientShadow_opaque_prefix {A : Arith} {L : ArithLaws A}
    (rays capacity : Z) (ind : Indeterminate) (vertices : Z -> Vector3)
    (vertexCount : Z) (centroid3d : Vector3) (heightFactor geomFactor : float)
    (buf0 : VertexBuffer) :
  3 <= vertexCount ->
  (heightFactor >? #0)%flt = true ->
  0 < rays ->
  (geomFactor >? #0)%flt = true ->
  3 * rays <= capacity ->
  exists bufOpaque bufOther : VertexBuffer,
    createAmbientShadow rays capacity ind vertices vertexCount centroid3d
      heightFactor geomFactor true buf0
    = Some (kVertexBufferMode_OnePolyRingShadow, bufOpaque)
    /\ createAmbientShadow rays capacity ind vertices vertexCount centroid3d
         heightFactor geomFactor false buf0
       = Some (kVertexBufferMode_TwoPolyRingShadow, bufOther)
    /\ length bufOpaque = length bufOther
    /\ (forall k, ~ 2 * rays <= k < 3 * rays ->
          shadowVertex bufOpaque k = shadowVertex bufOther k)
    /\ (forall k, 2 * rays <= k < 3 * rays ->
          shadowVertex bufOpaque k = None /\ is_Some (shadowVertex bufOther k)).
Proof.
  intros Hv Hh Hr Hg Hcap.
  pose proof (valid_input_passes rays vertexCount heightFactor geomFactor Hv Hh Hr Hg)
    as Hvalid.
  destruct (createAmbientShadow_cells rays capacity ind vertices vertexCount centroid3d
              heightFactor geomFactor true buf0 Hvalid ltac:(cbn iota; lia))
    as (b1 & E1 & Hlen1 & Hcells1).
  destruct (createAmbientShadow_cells rays capacity ind vertices vertexCount centroid3d
              heightFactor geomFactor false buf0 Hvalid ltac:(cbn iota; lia))
    as (b2 & E2 & Hlen2 & Hcells2).
  exists b1, b2. split; [exact E1|]. split; [exact E2|]. split; [lia|]. split.
  - intros k Hk. rewrite Hcells1, Hcells2. cbn [negb andb].
    repeat case_bool_decide; try lia; reflexivity.
  - intros k Hk. rewrite Hcells1, Hcells2. cbn [negb andb].
    rewrite !bool_decide_eq_false_2, bool_decide_eq_true_2 by lia.
    split; [reflexivity|]. eexists; reflexivity.
Qed.

Lemma createAmbientShadow_opaque_prefix_witness :
  (3 <= 4 /\ (Sample.f32 1 >? #0)%flt = true /\ 0 < 1 /\ 3 * 1 <= 3)
  /\ exists bufOpaque bufOther : VertexBuffer,
       createAmbientShadow (A := Sample.arith) 1 3 Sample.ind Sample.square 4 Sample.centre
         (Sample.f32 1) (Sample.f32 1) true []
       = Some (kVertexBufferMode_OnePolyRingShadow, bufOpaque)
       /\ createAmbientShadow (A := Sample.arith) 1 3 Sample.ind Sample.square 4
            Sample.centre (Sample.f32 1) (Sample.f32 1) false []
          = Some (kVertexBufferMode_TwoPolyRingShadow, bufOther)
       /\ shadowVertex bufOpaque 1 = shadowVertex bufOther 1.
Proof.
  split; [repeat split; first [reflexivity | lia]|].
  destruct (createAmbientShadow_opaque_prefix (A := Sample.arith) 1 3 Sample.ind
              Sample.square 4 Sample.centre (Sample.f32 1) (Sample.f32 1) []
              ltac:(lia) eq_refl ltac:(lia) eq_refl ltac:(lia))
    as (b1 & b2 & E1 & E2 & _ & Hsame & _).
  exists b1, b2. split; [exact E1|]. split; [exact E2|]. apply Hsame. lia.
Defined.

(** ** NaN in binary32 *)

Lemma SFleb_zero_false (x : spec_float) :
  SFleb x (b32_of_Z 0) = false <-> SFltb (b32_of_Z 0) x = true \/ x = S754_nan.
Proof.
  change (b32_of_Z 0) with (S754_zero false).
  destruct x as [s|s| |s m e]; try destruct s; cbn; split;
    try (intros [?|?]); try intros ?; try discriminate; auto.
Qed.

Lemma SFmul_nan_r (prec emax : Z) (x : spec_float) : SFmul prec emax x S754_nan = S754_nan.
Proof. destruct x; reflexivity. Qed.

Lemma SFadd_nan_r (prec emax : Z) (x : spec_float) : SFadd prec emax x S754_nan = S754_nan.
Proof. destruct x; reflexivity. Qed.

Lemma SFdiv_nan_r (prec emax : Z) (x : spec_float) : SFdiv prec emax x S754_nan = S754_nan.
Proof. destruct x; reflexivity. Qed.

(** The alpha is NaN when [heightFactor] is. *)
Lemma opacity_nan (libm_sinf libm_cosf : spec_float -> spec_float) (height : spec_float) :
  opacity (A := binary32_arith libm_sinf libm_cosf) height S754_nan = S754_nan.
Proof.
  unfold opacity.
  cbn [fadd fmul int_to_float int_to_double float_to_double double_to_float ddiv
       binary32_arith].
  now rewrite SFmul_nan_r, SFadd_nan_r; cbn [b32_to_b64]; rewrite SFdiv_nan_r.
Qed.

(** What the validation decides in binary32. *)
Lemma validation_accepts_nan_aux (libm_sinf libm_cosf : spec_float -> spec_float)
    (rays vertexCount : Z) (heightFactor geomFactor : spec_float) :
  3 <= vertexCount ->
  0 < rays ->
  SFltb (b32_of_Z 0) heightFactor = true \/ heightFactor = S754_nan ->
  SFltb (b32_of_Z 0) geomFactor = true \/ geomFactor = S754_nan ->
  invalid_input (A := binary32_arith libm_sinf libm_cosf)
    rays vertexCount heightFactor geomFactor = false.
Proof.
  intros Hv Hr Hh Hg. unfold invalid_input. cbn [fle int_to_float binary32_arith].
  apply SFleb_zero_false in Hh, Hg. rewrite Hh, Hg.
  destruct (Z.ltb_spec vertexCount 3), (Z.leb_spec rays 0); first [reflexivity | lia].
Qed.

(** X6.  In binary32 the validation lets a run proceed exactly when
    [vertexCount >= 3], the ray count is positive, and each of [heightFactor]
    and [geomFactor] is either greater than 0 or NaN: [NaN <= 0] is false, so
    a NaN factor is not rejected. *)
Theorem validation_accepts_nan (libm_sinf libm_cosf : spec_float -> spec_float)
    (rays vertexCount : Z) (heightFactor geomFactor : spec_float) :
  invalid_input (A := binary32_arith libm_sinf libm_cosf)
    rays vertexCount heightFactor geomFactor = false
  <-> 3 <= vertexCount
      /\ 0 < rays
      /\ (SFltb (b32_of_Z 0) heightFactor = true \/ heightFactor = S754_nan)
      /\ (SFltb (b32_of_Z 0) geomFactor = true \/ geomFactor = S754_nan).
Proof.
  unfold invalid_input. cbn [fle int_to_float binary32_arith].
  rewrite <- !SFleb_zero_false.
  destruct (Z.ltb_spec vertexCount 3), (Z.leb_spec rays 0),
           (SFleb heightFactor (b32_of_Z 0)), (SFleb geomFactor (b32_of_Z 0));
    cbn [orb]; split; try discriminate; try (intros (? & ? & ? & ?));
    try lia; try discriminate; try reflexivity; intros _; repeat split; lia.
Qed.

(** X7.  In binary32 a run with [heightFactor = NaN] on an otherwise valid
    input is not rejected, and it stores NaN: both coordinates of every
    outer-ring vertex and the alpha of every inner-ring vertex are NaN. *)
Theorem createAmbientShadow_nan_heightFactor
    (libm_sinf libm_cosf : spec_float -> spec_float) (rays capacity : Z)
    (ind : @Indeterminate (binary32_arith libm_sinf libm_cosf))
    (vertices : Z -> @Vector3 (binary32_arith libm_sinf libm_cosf)) (vertexCount : Z)
    (centroid3d : @Vector3 (binary32_arith libm_sinf libm_cosf))
    (geomFactor : spec_float) (isCasterOpaque : bool)
    (buf0 : @VertexBuffer (binary32_arith libm_sinf libm_cosf)) (i : Z) :
  3 <= vertexCount ->
  0 < rays ->
  SFltb (b32_of_Z 0) geomFactor = true ->
  (if isCasterOpaque then 2 else 3) * rays <= capacity ->
  0 <= i < rays ->
  exists (mode : VertexBufferMode) (buf : VertexBuffer) (outer inner : AlphaVertex),
    createAmbientShadow rays capacity ind vertices vertexCount centroid3d
      S754_nan geomFactor isCasterOpaque buf0 = Some (mode, buf)
    /\ shadowVertex buf i = Some outer
    /\ shadowVertex buf (rays + i) = Some inner
    /\ av_x outer = S754_nan
    /\ av_y outer = S754_nan
    /\ av_alpha inner = S754_nan.
Proof.
  intros Hv Hr Hg Hcap Hi.
  assert (invalid_input (A := binary32_arith libm_sinf libm_cosf)
            rays vertexCount S754_nan geomFactor = false) as Hvalid.
  { apply validation_accepts_nan_aux; auto. }
  destruct (createAmbientShadow_cells rays capacity ind vertices vertexCount centroid3d
              S754_nan geomFactor isCasterOpaque buf0 Hvalid Hcap)
    as (buf & E & Hlen & Hcells).
  eexists _, buf, _, _. split; [exact E|].
  split; [rewrite Hcells, bool_decide_eq_true_2 by lia; reflexivity|].
  split; [rewrite Hcells, bool_decide_eq_false_2, bool_decide_eq_true_2 by lia;
          reflexivity|].
  unfold outer_vertex, inner_vertex. cbn [av_x av_y av_alpha].
  rewrite opacity_nan.
  cbn [fadd fmul binary32_arith].
  rewrite SFmul_nan_r.
  assert (SFmul 24 128 S754_nan geomFactor = S754_nan) as -> by reflexivity.
  now rewrite !SFmul_nan_r, !SFadd_nan_r.
Qed.

Lemma createAmbientShadow_nan_heightFactor_witness :
  (3 <= 4 /\ 0 < 1 /\ SFltb (b32_of_Z 0) (Sample.f32 1) = true /\ 2 * 1 <= 3 /\ 0 <= 0 < 1)
  /\ exists (mode : VertexBufferMode) (buf : VertexBuffer) (inner : AlphaVertex),
       createAmbientShadow (A := Sample.arith) 1 3 Sample.ind Sample.square 4 Sample.centre
         S754_nan (Sample.f32 1) true [] = Some (mode, buf)
       /\ shadowVertex buf (1 + 0) = Some inner
       /\ av_alpha inner = S754_nan.
Proof.
  split; [repeat split; first [reflexivity | lia]|].
  destruct (createAmbientShadow_nan_heightFactor Sample.sinf_at_0 Sample.cosf_at_0 1 3
              Sample.ind Sample.square 4 Sample.centre (Sample.f32 1) true [] 0
              ltac:(lia) ltac:(lia) eq_refl ltac:(cbn iota; lia) ltac:(lia))
    as (mode & buf & outer & inner & E & _ & Hin & _ & _ & Halpha).
  exists mode, buf, inner. split; [exact E|]. split; [exact Hin|exact Halpha].
Defined.

(** ** Geometry of a hit, in exact arithmetic *)

Lemma Rltb_true (a b : R) : Rltb a b = true <-> (a < b)%R.
Proof. unfold Rltb. destruct (Rlt_dec a b); split; intros; try discriminate; tauto. Qed.

Lemma Rleb_true (a b : R) : Rleb a b = true <-> (a <= b)%R.
Proof. unfold Rleb. destruct (Rle_dec a b); split; intros; try discriminate; tauto. Qed.

Lemma Rneb_true (a b : R) : Rneb a b = true <-> a <> b.
Proof. unfold Rneb. destruct (Req_dec_T a b); split; intros; try discriminate; tauto. Qed.

Lemma Rneb_false (a b : R) : Rneb a b = false <-> a = b.
Proof. unfold Rneb. destruct (Req_dec_T a b); split; intros; try discriminate; tauto. Qed.

(** The acceptance test in exact arithmetic. *)
Lemma edge_accepted_real (vertices : Z -> @Vector3 real_arith)
    (start : @Vector3 real_arith) (dir : @Vector2 real_arith) (p1 p2 : Z) :
  edge_accepted vertices start dir p1 p2 = true
  <-> edge_div vertices dir p1 p2 <> 0%R
      /\ (0 < edge_t vertices start dir p1 p2 <= 1)%R
      /\ (0 < edge_t2 vertices start dir p1 p2)%R.
Proof.
  rewrite edge_accepted_true. cbn [flt fle fne int_to_float real_arith].
  rewrite Rneb_true, !Rltb_true, Rleb_true. tauto.
Qed.

(** In exact arithmetic, when some edge is accepted, the hit that
    [calculateIntersection] reports is a point of the polygon and of the ray:
    with [p1] the reported index, [p2] the vertex after it, [t] the fraction
    and [v] the distance, [0 < t <= 1], [v > 0] and
    [start + v * dir = p1 + t * (p2 - p1)] in both coordinates. *)
Lemma hit_on_edge_and_ray (vertices : Z -> @Vector3 real_arith)
    (start : @Vector3 real_arith) (dir : @Vector2 real_arith) (vertexCount : Z)
    (out : @Hit real_arith) :
  (exists q, 0 <= q < vertexCount
     /\ edge_accepted vertices start dir (edge_from vertexCount q) q = true) ->
  let hit := calculateIntersection vertices start dir vertexCount out in
  let p1 := outEdgeIndex hit in
  let p2 := (p1 + 1) mod vertexCount in
  let t : R := outEdgeFraction hit in
  let v : R := outRayDist hit in
  0 <= p1 < vertexCount
  /\ (0 < t <= 1)%R
  /\ (0 < v)%R
  /\ (v3_x start + v * v2_x dir
      = v3_x (vertices p1) + t * (v3_x (vertices p2) - v3_x (vertices p1)))%R
  /\ (v3_y start + v * v2_y dir
      = v3_y (vertices p1) + t * (v3_y (vertices p2) - v3_y (vertices p1)))%R.
Proof.
  intros (q0 & Hq0 & Hyes0) hit p1 p2 t v.
  destruct (first_true_cases
              (fun p2 => edge_accepted vertices start dir (edge_from vertexCount p2) p2)
              vertexCount) as [Hno|(q & Hq & Hacc & Hfirst)].
  { rewrite Hno in Hyes0 by exact Hq0. discriminate. }
  assert (hit = hit_of vertices start dir (edge_from vertexCount q) q) as Hhit
    by (unfold hit; now apply calculateIntersection_first_hit).
  assert (p1 = edge_from vertexCount q) as Hp1 by (unfold p1; now rewrite Hhit).
  assert (p2 = q) as Hp2.
  { unfold p2. rewrite Hp1, <- Z.rem_mod_nonneg.
    - now apply edge_from_next.
    - pose proof (edge_from_range vertexCount q Hq). lia.
    - lia. }
  assert (t = edge_t vertices start dir (edge_from vertexCount q) q) as Ht
    by (unfold t; now rewrite Hhit).
  assert (v = edge_t2 vertices start dir (edge_from vertexCount q) q) as Hv
    by (unfold v; now rewrite Hhit).
  apply edge_accepted_real in Hacc as (Hdiv & Hrange & Hpos).
  rewrite <- Ht in Hrange. rewrite <- Hv in Hpos.
  split; [rewrite Hp1; now apply edge_from_range|].
  split; [exact Hrange|]. split; [exact Hpos|].
  rewrite Hp2, Hp1.
  apply (proj2 (edge_parameters_solve_system vertices start dir (edge_from vertexCount q) q)
           Hdiv t v).
  now split.
Qed.

(** X8.  In exact arithmetic, when some edge is accepted, the hit that
    [calculateIntersection] reports is a point of the polygon and of the ray:
    with [p1] the reported index, [p2] the vertex after it, [t] the fraction
    and [v] the distance, [0 < t <= 1], [v > 0] and
    [start + v * dir = p1 + t * (p2 - p1)] in both coordinates. *)
Theorem calculateIntersection_point_on_edge (vertices : Z -> @Vector3 real_arith)
    (start : @Vector3 real_arith) (dir : @Vector2 real_arith) (vertexCount : Z)
    (out : @Hit real_arith) :
  (exists q, 0 <= q < vertexCount
     /\ edge_accepted vertices start dir (edge_from vertexCount q) q = true) ->
  let hit := calculateIntersection vertices start dir vertexCount out in
  let p1 := outEdgeIndex hit in
  let p2 := (p1 + 1) mod vertexCount in
  let t : R := outEdgeFraction hit in
  let v : R := outRayDist hit in
  0 <= p1 < vertexCount
  /\ (0 < t <= 1)%R
  /\ (0 < v)%R
  /\ (v3_x start + v * v2_x dir
      = v3_x (vertices p1) + t * (v3_x (vertices p2) - v3_x (vertices p1)))%R
  /\ (v3_y start + v * v2_y dir
      = v3_y (vertices p1) + t * (v3_y (vertices p2) - v3_y (vertices p1)))%R.
Proof. apply hit_on_edge_and_ray. Qed.

(** The ray that points up from the centre of the square meets its top
    edge, 2 -> 3, half way along, at distance 1. *)
Lemma rsquare_top_edge :
  edge_div MoreSamples.rsquare MoreSamples.rup 2 3 = (-2)%R
  /\ edge_t MoreSamples.rsquare MoreSamples.rcentre MoreSamples.rup 2 3 = (1 / 2)%R
  /\ edge_t2 MoreSamples.rsquare MoreSamples.rcentre MoreSamples.rup 2 3 = 1%R.
Proof.
  unfold edge_t, edge_t2, edge_div.
  change (MoreSamples.rsquare 2) with (MoreSamples.rvec3 1 1 8).
  change (MoreSamples.rsquare 3) with (MoreSamples.rvec3 (-1) 1 12).
  cbn [MoreSamples.rcentre MoreSamples.rup MoreSamples.rvec3 MoreSamples.rvec2
       v3_x v3_y v3_z v2_x v2_y].
  real_ops. repeat split; field.
Qed.

Lemma rsquare_top_edge_accepted :
  edge_accepted MoreSamples.rsquare MoreSamples.rcentre MoreSamples.rup (edge_from 4 3) 3
  = true.
Proof.
  change (edge_from 4 3) with 2. apply edge_accepted_real.
  destruct rsquare_top_edge as (-> & -> & ->). lra.
Qed.

Lemma calculateIntersection_point_on_edge_witness :
  (exists q, 0 <= q < 4
     /\ edge_accepted MoreSamples.rsquare MoreSamples.rcentre MoreSamples.rup
          (edge_from 4 q) q = true)
  /\ (0 < outRayDist
            (calculateIntersection MoreSamples.rsquare MoreSamples.rcentre MoreSamples.rup 4
               MoreSamples.rstale))%R.
Proof.
  assert (exists q, 0 <= q < 4
            /\ edge_accepted MoreSamples.rsquare MoreSamples.rcentre MoreSamples.rup
                 (edge_from 4 q) q = true) as Hacc
    by (exists 3; split; [lia|exact rsquare_top_edge_accepted]).
  split; [exact Hacc|].
  exact (proj1 (proj2 (proj2
           (calculateIntersection_point_on_edge MoreSamples.rsquare MoreSamples.rcentre
              MoreSamples.rup 4 MoreSamples.rstale Hacc)))).
Defined.

(** ** Heights and alphas along a hit edge, in exact arithmetic *)

Section HitEdgeReal.
Variable rays : Z.
Variable ind : @Indeterminate real_arith.
Variable vertices : Z -> @Vector3 real_arith.
Variable vertexCount : Z.
Variable centroid3d : @Vector3 real_arith.

(** For a ray that meets an accepted edge, the edge in use is the reported
    one, and the values stored to [rayDist] and [rayHeight] come from it. *)
Lemma ray_with_hit (i : Z) :
  0 <= i < rays ->
  (exists q, 0 <= q < vertexCount
     /\ edge_accepted vertices centroid3d (dirs rays ind i) (edge_from vertexCount q) q
        = true) ->
  let hit := ray_hit rays ind vertices vertexCount centroid3d i in
  let e := ray_edge rays ind vertices vertexCount centroid3d i in
  let t : R := outEdgeFraction hit in
  let v : R := outRayDist hit in
  e = outEdgeIndex hit
  /\ 0 <= e < vertexCount
  /\ (0 < t <= 1)%R /\ (0 < v)%R
  /\ rayDist rays ind vertices vertexCount centroid3d i = v
  /\ rayHeight rays ind vertices vertexCount centroid3d i
     = (v3_z (vertices e)
        + t * (v3_z (vertices ((e + 1) mod vertexCount)) - v3_z (vertices e)))%R
  /\ (v3_x centroid3d + v * v2_x (dirs rays ind i)
      = v3_x (vertices e)
        + t * (v3_x (vertices ((e + 1) mod vertexCount)) - v3_x (vertices e)))%R
  /\ (v3_y centroid3d + v * v2_y (dirs rays ind i)
      = v3_y (vertices e)
        + t * (v3_y (vertices ((e + 1) mod vertexCount)) - v3_y (vertices e)))%R.
Proof.
  intros Hi Hacc hit e t v.
  destruct (hit_on_edge_and_ray vertices centroid3d (dirs rays ind i) vertexCount
              (ind_hit ind i) Hacc) as (Hrange & Ht & Hv & Hx & Hy).
  fold (ray_hit rays ind vertices vertexCount centroid3d i) in Hrange, Ht, Hv, Hx, Hy.
  fold hit in Hrange, Ht, Hv, Hx, Hy.
  assert (e = outEdgeIndex hit) as He.
  { unfold e, ray_edge. fold hit.
    destruct (Z.ltb_spec (outEdgeIndex hit) 0), (Z.geb_spec (outEdgeIndex hit) vertexCount);
      cbn [orb]; try lia; reflexivity. }
  split; [exact He|]. rewrite He.
  split; [exact Hrange|]. split; [exact Ht|]. split; [exact Hv|].
  split; [now apply rayDist_cell|]. split; [|split; [exact Hx|exact Hy]].
  rewrite rayHeight_cell by exact Hi. unfold interpolated_height.
  fold e hit. rewrite He, Z.rem_mod_nonneg by lia. reflexivity.
Qed.

End HitEdgeReal.

(** X9.  In exact arithmetic, for a ray that meets an accepted edge, the
    height stored to [rayHeight] lies between the heights of the two ends of
    that edge; when these are not negative and [heightFactor > 0], the alpha
    of the inner ring computed from it is greater than 0 and at most 1. *)
Theorem rayHeight_between_endpoints (rays : Z) (ind : @Indeterminate real_arith)
    (vertices : Z -> @Vector3 real_arith) (vertexCount : Z)
    (centroid3d : @Vector3 real_arith) (heightFactor : R) (i : Z) :
  0 <= i < rays ->
  (exists q, 0 <= q < vertexCount
     /\ edge_accepted vertices centroid3d (dirs rays ind i) (edge_from vertexCount q) q
        = true) ->
  let e := ray_edge rays ind vertices vertexCount centroid3d i in
  let h1 : R := v3_z (vertices e) in
  let h2 : R := v3_z (vertices ((e + 1) mod vertexCount)) in
  let h : R := rayHeight rays ind vertices vertexCount centroid3d i in
  (Rmin h1 h2 <= h <= Rmax h1 h2)%R
  /\ ((0 <= h1)%R -> (0 <= h2)%R -> (0 < heightFactor)%R ->
      (0 < opacity (A := real_arith) h heightFactor <= 1)%R).
Proof.
  intros Hi Hacc e h1 h2 h.
  destruct (ray_with_hit rays ind vertices vertexCount centroid3d i Hi Hacc)
    as (_ & _ & Ht & _ & _ & Hh & _).
  fold e in Hh. fold h h1 h2 in Hh.
  set (t := outEdgeFraction (ray_hit rays ind vertices vertexCount centroid3d i)) in *.
  assert (Rmin h1 h2 <= h <= Rmax h1 h2)%R as Hbetween.
  { rewrite Hh. unfold Rmin, Rmax. destruct (Rle_dec h1 h2); split; nra. }
  split; [exact Hbetween|]. intros H1 H2 Hhf.
  assert (0 <= h)%R as Hpos.
  { apply Rle_trans with (Rmin h1 h2); [|apply Hbetween].
    unfold Rmin. destruct (Rle_dec h1 h2); assumption. }
  rewrite opacity_real.
  assert (0 <= h * heightFactor)%R as Hprod by (apply Rmult_le_pos; lra).
  split.
  - apply Rdiv_lt_0_compat; lra.
  - apply Rmult_le_reg_r with (1 + h * heightFactor)%R; [lra|].
    unfold Rdiv. rewrite Rmult_assoc, Rinv_l by lra. lra.
Qed.

(** With one ray, the ray points up. *)
Lemma single_ray_points_up (ind : @Indeterminate real_arith) :
  dirs 1 ind 0 = MoreSamples.rup.
Proof.
  rewrite dirs_cell by lia. rewrite deltaAngle_real. real_ops.
  replace (2 * PI / 1 * 0)%R with 0%R by field.
  now rewrite sin_0, cos_0.
Qed.

Lemma single_ray_meets_top_edge (ind : @Indeterminate real_arith) :
  exists q, 0 <= q < 4
    /\ edge_accepted MoreSamples.rsquare MoreSamples.rcentre (dirs 1 ind 0)
         (edge_from 4 q) q = true.
Proof.
  exists 3. split; [lia|]. rewrite single_ray_points_up. exact rsquare_top_edge_accepted.
Qed.

Lemma rayHeight_between_endpoints_witness :
  (0 <= 0 < 1
   /\ exists q, 0 <= q < 4
        /\ edge_accepted MoreSamples.rsquare MoreSamples.rcentre
             (dirs 1 MoreSamples.rind 0) (edge_from 4 q) q = true)
  /\ let e := ray_edge 1 MoreSamples.rind MoreSamples.rsquare 4 MoreSamples.rcentre 0 in
     let h : R := rayHeight 1 MoreSamples.rind MoreSamples.rsquare 4 MoreSamples.rcentre 0 in
     (Rmin (v3_z (MoreSamples.rsquare e)) (v3_z (MoreSamples.rsquare ((e + 1) mod 4))) <= h
      <= Rmax (v3_z (MoreSamples.rsquare e)) (v3_z (MoreSamples.rsquare ((e + 1) mod 4))))%R.
Proof.
  split; [split; [lia|apply single_ray_meets_top_edge]|].
  exact (proj1 (rayHeight_between_endpoints 1 MoreSamples.rind MoreSamples.rsquare 4
                  MoreSamples.rcentre 1%R 0 ltac:(lia)
                  (single_ray_meets_top_edge MoreSamples.rind))).
Defined.

(** ** The rings and the polygon, in exact arithmetic *)

(** The normal that [createAmbientShadow] uses for a ray has length 1,
    whether [calculateNormal] computed it or left it at (1, 0). *)
Lemma normal_at_unit (rays : Z) (ind : @Indeterminate real_arith)
    (vertices : Z -> @Vector3 real_arith) (vertexCount : Z)
    (centroid3d : @Vector3 real_arith) (i : Z) :
  0 <= i < rays ->
  let n := normal_at rays ind vertices vertexCount centroid3d i in
  (v2_x n * v2_x n + v2_y n * v2_y n = 1)%R.
Proof.
  intros Hi n. unfold n, normal_at.
  set (dir := dirs rays ind).
  set (rd := rayDist rays ind vertices vertexCount centroid3d).
  set (chord := v2_sub (v2_scale (dir ((i + 1) mod rays)) (rd ((i + 1) mod rays)))
                       (v2_scale (dir ((i - 1) mod rays)) (rd ((i - 1) mod rays)))).
  destruct (Req_dec_T (v2_length chord) 0%R) as [Hzero|Hlen].
  - rewrite calculateNormal_cases by exact Hi. cbv zeta. fold chord.
    assert ((v2_length chord !=? #0)%flt = false) as ->
      by (real_ops; now apply Rneb_false).
    cbn [v2_x v2_y]. real_ops. ring.
  - exact (proj1 (calculateNormal_unit_perpendicular rays i dir rd
                    (mkVector2 (A := real_arith) (#1)%flt (#0)%flt) Hi Hlen)).
Qed.

(** Validity in exact arithmetic. *)
Lemma valid_input_real (rays vertexCount : Z) (heightFactor geomFactor : R) :
  3 <= vertexCount -> (0 < heightFactor)%R -> 0 < rays -> (0 < geomFactor)%R ->
  invalid_input (A := real_arith) rays vertexCount heightFactor geomFactor = false.
Proof.
  intros Hv Hh Hr Hg.
  apply (@valid_input_passes real_arith rays vertexCount heightFactor geomFactor real_laws);
    try assumption; real_ops; now apply Rltb_true.
Qed.

(** X10.  In exact arithmetic, on valid inputs, the inner-ring vertex of a
    ray that meets an accepted edge lies on that edge: it is
    [p1 + t * (p2 - p1)] with [0 < t <= 1], [p1] and [p2] being the ends of
    the edge in use. *)
Theorem inner_ring_vertex_on_edge (rays capacity : Z) (ind : @Indeterminate real_arith)
    (vertices : Z -> @Vector3 real_arith) (vertexCount : Z)
    (centroid3d : @Vector3 real_arith) (heightFactor geomFactor : R)
    (isCasterOpaque : bool) (buf0 : @VertexBuffer real_arith) (i : Z) :
  3 <= vertexCount ->
  (0 < heightFactor)%R ->
  0 < rays ->
  (0 < geomFactor)%R ->
  (if isCasterOpaque then 2 else 3) * rays <= capacity ->
  0 <= i < rays ->
  (exists q, 0 <= q < vertexCount
     /\ edge_accepted vertices centroid3d (dirs rays ind i) (edge_from vertexCount q) q
        = true) ->
  exists (mode : VertexBufferMode) (buf : VertexBuffer) (inner : AlphaVertex) (t : R),
    createAmbientShadow rays capacity ind vertices vertexCount centroid3d
      heightFactor geomFactor isCasterOpaque buf0 = Some (mode, buf)
    /\ shadowVertex buf (rays + i) = Some inner
    /\ (0 < t <= 1)%R
    /\ let p1 := ray_edge rays ind vertices vertexCount centroid3d i in
       let p2 := (p1 + 1) mod vertexCount in
       0 <= p1 < vertexCount
       /\ av_x inner
          = (v3_x (vertices p1) + t * (v3_x (vertices p2) - v3_x (vertices p1)))%R
       /\ av_y inner
          = (v3_y (vertices p1) + t * (v3_y (vertices p2) - v3_y (vertices p1)))%R.
Proof.
  intros Hv Hh Hr Hg Hcap Hi Hacc.
  pose proof (valid_input_real rays vertexCount heightFactor geomFactor Hv Hh Hr Hg)
    as Hvalid.
  destruct (createAmbientShadow_cells rays capacity ind vertices vertexCount centroid3d
              heightFactor geomFactor isCasterOpaque buf0 Hvalid Hcap)
    as (buf & E & _ & Hcells).
  destruct (ray_with_hit rays ind vertices vertexCount centroid3d i Hi Hacc)
    as (_ & Hrange & Ht & _ & Hdist & _ & Hx & Hy).
  eexists _, buf, _, _. split; [exact E|].
  split.
  { rewrite Hcells, bool_decide_eq_false_2, bool_decide_eq_true_2 by lia.
    replace (rays + i - rays) with i by lia. reflexivity. }
  split; [exact Ht|]. cbv zeta. split; [exact Hrange|].
  unfold inner_vertex, intersection_at, v2_add, v2_scale, centroid2d.
  cbn [av_x av_y v2_x v2_y]. rewrite Hdist. real_ops.
  rewrite <- Hx, <- Hy. split; ring.
Qed.

Lemma inner_ring_vertex_on_edge_witness :
  (3 <= 4 /\ (0 < 1)%R /\ 0 < 1 /\ 2 * 1 <= 3 /\ 0 <= 0 < 1
   /\ exists q, 0 <= q < 4
        /\ edge_accepted MoreSamples.rsquare MoreSamples.rcentre
             (dirs 1 MoreSamples.rind 0) (edge_from 4 q) q = true)
  /\ exists (mode : VertexBufferMode) (buf : VertexBuffer) (inner : AlphaVertex),
       createAmbientShadow 1 3 MoreSamples.rind MoreSamples.rsquare 4 MoreSamples.rcentre
         1%R 1%R true [] = Some (mode, buf)
       /\ shadowVertex buf (1 + 0) = Some inner.
Proof.
  split.
  { repeat split; try lia; try lra. apply single_ray_meets_top_edge. }
  destruct (inner_ring_vertex_on_edge 1 3 MoreSamples.rind MoreSamples.rsquare 4
              MoreSamples.rcentre 1%R 1%R true [] 0
              ltac:(lia) ltac:(lra) ltac:(lia) ltac:(lra) ltac:(cbn iota; lia) ltac:(lia)
              (single_ray_meets_top_edge MoreSamples.rind))
    as (mode & buf & inner & t & E & Hin & _).
  exists mode, buf, inner. split; [exact E|exact Hin].
Defined.

(** X11.  In exact arithmetic, on valid inputs, the outer-ring vertex of
    every ray lies at the distance [|rayHeight * heightFactor * geomFactor|]
    from the inner-ring vertex of that ray. *)
Theorem outer_ring_at_expansion_distance (rays capacity : Z)
    (ind : @Indeterminate real_arith) (vertices : Z -> @Vector3 real_arith)
    (vertexCount : Z) (centroid3d : @Vector3 real_arith) (heightFactor geomFactor : R)
    (isCasterOpaque : bool) (buf0 : @VertexBuffer real_arith) (i : Z) :
  3 <= vertexCount ->
  (0 < heightFactor)%R ->
  0 < rays ->
  (0 < geomFactor)%R ->
  (if isCasterOpaque then 2 else 3) * rays <= capacity ->
  0 <= i < rays ->
  exists (mode : VertexBufferMode) (buf : VertexBuffer) (outer inner : AlphaVertex),
    createAmbientShadow rays capacity ind vertices vertexCount centroid3d
      heightFactor geomFactor isCasterOpaque buf0 = Some (mode, buf)
    /\ shadowVertex buf i = Some outer
    /\ shadowVertex buf (rays + i) = Some inner
    /\ let expansionDist : R :=
         (rayHeight rays ind vertices vertexCount centroid3d i * heightFactor * geomFactor)%R
       in
       ((av_x outer - av_x inner) * (av_x outer - av_x inner)
        + (av_y outer - av_y inner) * (av_y outer - av_y inner)
        = expansionDist * expansionDist)%R.
Proof.
  intros Hv Hh Hr Hg Hcap Hi.
  pose proof (valid_input_real rays vertexCount heightFactor geomFactor Hv Hh Hr Hg)
    as Hvalid.
  destruct (createAmbientShadow_cells rays capacity ind vertices vertexCount centroid3d
              heightFactor geomFactor isCasterOpaque buf0 Hvalid Hcap)
    as (buf & E & _ & Hcells).
  eexists _, buf, _, _. split; [exact E|].
  split; [rewrite Hcells, bool_decide_eq_true_2 by lia; reflexivity|].
  split.
  { rewrite Hcells, bool_decide_eq_false_2, bool_decide_eq_true_2 by lia.
    replace (rays + i - rays) with i by lia. reflexivity. }
  cbv zeta. pose proof (normal_at_unit rays ind vertices vertexCount centroid3d i Hi)
    as Hunit. cbv zeta in Hunit.
  unfold outer_vertex, inner_vertex. cbn [av_x av_y]. real_ops.
  set (nx := v2_x (normal_at rays ind vertices vertexCount centroid3d i)) in *.
  set (ny := v2_y (normal_at rays ind vertices vertexCount centroid3d i)) in *.
  set (e := (rayHeight rays ind vertices vertexCount centroid3d i * heightFactor
             * geomFactor)%R).
  transitivity ((nx * nx + ny * ny) * (e * e))%R; [ring|].
  rewrite Hunit. ring.
Qed.

Lemma outer_ring_at_expansion_distance_witness :
  (3 <= 4 /\ (0 < 1)%R /\ 0 < 1 /\ 2 * 1 <= 3 /\ 0 <= 0 < 1)
  /\ exists (mode : VertexBufferMode) (buf : VertexBuffer) (outer inner : AlphaVertex),
       createAmbientShadow 1 3 MoreSamples.rind MoreSamples.rsquare 4 MoreSamples.rcentre
         1%R 1%R true [] = Some (mode, buf)
       /\ shadowVertex buf 0 = Some outer
       /\ shadowVertex buf (1 + 0) = Some inner.
Proof.
  split; [repeat split; first [lia | lra]|].
  destruct (outer_ring_at_expansion_distance 1 3 MoreSamples.rind MoreSamples.rsquare 4
              MoreSamples.rcentre 1%R 1%R true [] 0
              ltac:(lia) ltac:(lra) ltac:(lia) ltac:(lra) ltac:(cbn iota; lia) ltac:(lia))
    as (mode & buf & outer & inner & E & Hout & Hin & _).
  exists mode, buf, outer, inner. split; [exact E|]. split; [exact Hout|exact Hin].
Defined.

(** ** The normal, in exact arithmetic *)

Lemma v2_length_zero (v : @Vector2 real_arith) :
  v2_length v = 0%R <-> v2_x v = 0%R /\ v2_y v = 0%R.
Proof.
  rewrite v2_length_real. split.
  - intros H. apply sqrt_eq_0 in H.
    + pose proof (Rle_0_sqr (v2_x v)) as Hx. pose proof (Rle_0_sqr (v2_y v)) as Hy.
      unfold Rsqr in Hx, Hy. split; nra.
    + pose proof (Rle_0_sqr (v2_x v)) as Hx. pose proof (Rle_0_sqr (v2_y v)) as Hy.
      unfold Rsqr in Hx, Hy. lra.
  - intros [-> ->]. replace (0 * 0 + 0 * 0)%R with 0%R by ring. apply sqrt_0.
Qed.

(** X12.  In exact arithmetic, when the points of the two neighbour rays
    coincide [calculateNormal] returns the normal it was given; when they
    differ it returns a vector of length 1 that is perpendicular to the chord
    between them and lies to its left (the chord turned counter-clockwise by a
    quarter turn). *)
Theorem calculateNormal_unit_or_unchanged (rays i : Z) (dir : Z -> @Vector2 real_arith)
    (rayDist : Z -> R) (normal : @Vector2 real_arith) :
  0 <= i < rays ->
  let pre := (i - 1) mod rays in
  let post := (i + 1) mod rays in
  let chord :=
    v2_sub (v2_scale (dir post) (rayDist post)) (v2_scale (dir pre) (rayDist pre)) in
  let n := calculateNormal rays i dir rayDist normal in
  (v2_x chord = 0%R /\ v2_y chord = 0%R /\ n = normal)
  \/ ((v2_x chord <> 0%R \/ v2_y chord <> 0%R)
      /\ (v2_x n * v2_x n + v2_y n * v2_y n = 1)%R
      /\ (v2_x n * v2_x chord + v2_y n * v2_y chord = 0)%R
      /\ (0 < v2_x chord * v2_y n - v2_y chord * v2_x n)%R).
Proof.
  intros Hi pre post chord n.
  destruct (Req_dec_T (v2_length chord) 0%R) as [Hzero|Hlen].
  - left. apply v2_length_zero in Hzero as Hc. destruct Hc as [Hx Hy].
    split; [exact Hx|]. split; [exact Hy|].
    unfold n. rewrite calculateNormal_cases by exact Hi. cbv zeta. fold pre post chord.
    assert ((v2_length chord !=? #0)%flt = false) as ->
      by (real_ops; now apply Rneb_false).
    reflexivity.
  - right.
    assert (v2_x chord <> 0%R \/ v2_y chord <> 0%R) as Hne.
    { destruct (Req_dec_T (v2_x chord) 0%R) as [Hx|Hx]; [|now left].
      destruct (Req_dec_T (v2_y chord) 0%R) as [Hy|Hy]; [|now right].
      exfalso. apply Hlen. now apply v2_length_zero. }
    split; [exact Hne|].
    destruct (calculateNormal_unit_perpendicular rays i dir rayDist normal Hi Hlen)
      as [Hunit Hperp].
    fold pre post chord n in Hunit, Hperp.
    split; [exact Hunit|]. split; [exact Hperp|].
    unfold n. rewrite calculateNormal_cases by exact Hi. cbv zeta. fold pre post chord.
    assert ((v2_length chord !=? #0)%flt = true) as ->
      by (real_ops; now apply Rneb_true).
    cbn [v2_x v2_y]. unfold v2_normalize. cbn [v2_x v2_y]. real_ops.
    set (len := v2_length chord) in *.
    assert (0 < len)%R as Hpos.
    { assert (0 <= len)%R by (unfold len; rewrite v2_length_real; apply sqrt_pos). lra. }
    assert (len * len = v2_x chord * v2_x chord + v2_y chord * v2_y chord)%R as Hsq.
    { unfold len. rewrite v2_length_real. apply sqrt_sqrt.
      pose proof (Rle_0_sqr (v2_x chord)). pose proof (Rle_0_sqr (v2_y chord)).
      unfold Rsqr in *. lra. }
    assert ((v2_x chord * (v2_x chord * (1 / len)) - v2_y chord * - (v2_y chord * (1 / len))
             = len :> R)%R) as ->; [|exact Hpos].
    apply (Rmult_eq_reg_r len); [|lra]. rewrite Hsq. field. lra.
Qed.

Lemma calculateNormal_unit_or_unchanged_witness :
  0 <= 0 < 4
  /\ let chord :=
       v2_sub (v2_scale (MoreSamples.four_rays ((0 + 1) mod 4)) 1%R)
              (v2_scale (MoreSamples.four_rays ((0 - 1) mod 4)) 1%R) in
     let n := calculateNormal (A := real_arith) 4 0 MoreSamples.four_rays (fun _ => 1%R)
                (MoreSamples.rvec2 1 0) in
     (v2_x chord = 0%R /\ v2_y chord = 0%R /\ n = MoreSamples.rvec2 1 0)
     \/ ((v2_x chord <> 0%R \/ v2_y chord <> 0%R)
         /\ (v2_x n * v2_x n + v2_y n * v2_y n = 1)%R
         /\ (v2_x n * v2_x chord + v2_y n * v2_y chord = 0)%R
         /\ (0 < v2_x chord * v2_y n - v2_y chord * v2_x n)%R).
Proof.
  split; [lia|].
  exact (calculateNormal_unit_or_unchanged 4 0 MoreSamples.four_rays (fun _ => 1%R)
           (MoreSamples.rvec2 1 0) ltac:(lia)).
Defined.

(** X13.  In exact arithmetic, with one or two rays the two neighbours of a
    ray are the same ray, the chord is zero, and [calculateNormal] returns
    the normal it was given for every ray. *)
Theorem calculateNormal_one_or_two_rays (rays i : Z) (dir : Z -> @Vector2 real_arith)
    (rayDist : Z -> R) (normal : @Vector2 real_arith) :
  rays = 1 \/ rays = 2 ->
  0 <= i < rays ->
  calculateNormal rays i dir rayDist normal = normal.
Proof.
  intros Hrays Hi. rewrite calculateNormal_cases by exact Hi. cbv zeta.
  assert ((i + 1) mod rays = (i - 1) mod rays) as ->.
  { destruct Hrays as [->| ->].
    - now rewrite !Z.mod_1_r.
    - replace (i + 1) with (i - 1 + 1 * 2) by lia. apply Z_mod_plus_full. }
  set (p := v2_scale (dir ((i - 1) mod rays)) (rayDist ((i - 1) mod rays))).
  assert (v2_length (v2_sub p p) = 0%R) as Hzero.
  { apply v2_length_zero. unfold v2_sub. cbn [v2_x v2_y]. real_ops. split; ring. }
  assert ((v2_length (v2_sub p p) !=? #0)%flt = false) as ->
    by (real_ops; now apply Rneb_false).
  reflexivity.
Qed.

Lemma calculateNormal_one_or_two_rays_witness :
  (2 = 1 \/ 2 = 2) /\ 0 <= 1 < 2
  /\ calculateNormal (A := real_arith) 2 1 MoreSamples.four_rays (fun _ => 1%R)
       (MoreSamples.rvec2 1 0) = MoreSamples.rvec2 1 0.
Proof.
  split; [now right|]. split; [lia|].
  apply (calculateNormal_one_or_two_rays 2 1); [now right|lia].
Defined.

(** ** The fallback to edge 0 *)

(** X14.  For a ray that no edge accepts, when the value left in [edgeIndex]
    is negative or at least [vertexCount], the range check replaces it by 0:
    [rayHeight] is interpolated between [vertices[0]] and the vertex after it,
    with the fraction left in [edgeFraction], and [rayDist] is the value left
    in [rayDistance]. *)
Theorem no_hit_falls_back_to_edge_0 {A : Arith} (rays : Z) (ind : Indeterminate)
    (vertices : Z -> Vector3) (vertexCount : Z) (centroid3d : Vector3) (i : Z) :
  0 <= i < rays ->
  (forall p2, 0 <= p2 < vertexCount ->
     edge_accepted vertices centroid3d (dirs rays ind i) (edge_from vertexCount p2) p2
     = false) ->
  outEdgeIndex (ind_hit ind i) < 0 \/ vertexCount <= outEdgeIndex (ind_hit ind i) ->
  ray_edge rays ind vertices vertexCount centroid3d i = 0
  /\ rayDist rays ind vertices vertexCount centroid3d i = outRayDist (ind_hit ind i)
  /\ rayHeight rays ind vertices vertexCount centroid3d i
     = (v3_z (vertices 0)
        + outEdgeFraction (ind_hit ind i)
          * (v3_z (vertices (Z.rem 1 vertexCount)) - v3_z (vertices 0)))%flt.
Proof.
  intros Hi Hno Hwild.
  destruct (no_hit_edge_in_use rays ind vertices vertexCount centroid3d i Hi Hno)
    as (He & Hd & Hh).
  assert ((outEdgeIndex (ind_hit ind i) <? 0) || (outEdgeIndex (ind_hit ind i) >=? vertexCount)
          = true) as Hguard.
  { destruct (Z.ltb_spec (outEdgeIndex (ind_hit ind i)) 0),
             (Z.geb_spec (outEdgeIndex (ind_hit ind i)) vertexCount); cbn [orb];
      first [reflexivity | lia]. }
  rewrite Hguard in He, Hh. split; [exact He|]. split; [exact Hd|exact Hh].
Qed.

Lemma no_hit_falls_back_to_edge_0_witness :
  (0 <= 0 < 1
   /\ (forall p2, 0 <= p2 < 4 ->
         edge_accepted Sample.square Sample.outside (dirs 1 MoreSamples.wild_ind 0)
           (edge_from 4 p2) p2 = false)
   /\ (outEdgeIndex (ind_hit MoreSamples.wild_ind 0) < 0
       \/ 4 <= outEdgeIndex (ind_hit MoreSamples.wild_ind 0)))
  /\ ray_edge 1 MoreSamples.wild_ind Sample.square 4 Sample.outside 0 = 0
  /\ rayHeight 1 MoreSamples.wild_ind Sample.square 4 Sample.outside 0 = Sample.f32 12.
Proof.
  assert (forall p2, 0 <= p2 < 4 ->
            edge_accepted Sample.square Sample.outside (dirs 1 MoreSamples.wild_ind 0)
              (edge_from 4 p2) p2 = false) as Hno.
  { intros p2 Hp2.
    assert (p2 = 0 \/ p2 = 1 \/ p2 = 2 \/ p2 = 3) as [->|[->|[->| ->]]] by lia;
      vm_compute; reflexivity. }
  assert (outEdgeIndex (ind_hit MoreSamples.wild_ind 0) < 0
          \/ 4 <= outEdgeIndex (ind_hit MoreSamples.wild_ind 0)) as Hwild
    by (right; cbn; lia).
  split; [split; [lia|split; [exact Hno|exact Hwild]]|].
  destruct (no_hit_falls_back_to_edge_0 1 MoreSamples.wild_ind Sample.square 4
              Sample.outside 0 ltac:(lia) Hno Hwild) as (He & _ & Hh).
  split; [exact He|]. rewrite Hh. vm_compute. reflexivity.
Defined.

(** * The claims in exact arithmetic, and where binary32 departs from it *)

(** ** The tests of calculateIntersection, written out *)

(** The written-out tests are the acceptance test of the loop body, and they
    determine [t] and [t2]. *)
Lemma passes_tests_accepted {A : Arith} (vertices : Z -> Vector3) (start : Vector3)
    (dir : Vector2) (p1 p2 : Z) (t t2 : float) :
  passes_tests vertices start dir p1 p2 t t2
  <-> edge_accepted vertices start dir p1 p2 = true
      /\ t = edge_t vertices start dir p1 p2
      /\ t2 = edge_t2 vertices start dir p1 p2.
Proof.
  rewrite edge_accepted_true. unfold passes_tests, edge_t, edge_t2, edge_div.
  cbv zeta. split.
  - intros (-> & -> & Hd & Ht0 & Ht1 & Hv). repeat split; assumption.
  - intros ((Hd & Ht0 & Ht1 & Hv) & -> & ->). repeat split; assumption.
Qed.

Lemma fails_tests_rejected {A : Arith} (vertices : Z -> Vector3) (start : Vector3)
    (dir : Vector2) (p1 p2 : Z) :
  (~ exists t t2 : float, passes_tests vertices start dir p1 p2 t t2)
  <-> edge_accepted vertices start dir p1 p2 = false.
Proof.
  split.
  - intros Hno. destruct (edge_accepted vertices start dir p1 p2) eqn:E; [|reflexivity].
    exfalso. apply Hno. eexists _, _. apply passes_tests_accepted. now repeat split.
  - intros Hrej (t & t2 & H). apply passes_tests_accepted in H as (H & _). congruence.
Qed.

(** In exact arithmetic the acceptance test says that the ray meets the
    edge. *)
Lemma meets_edge_accepted (vertices : Z -> @Vector3 real_arith)
    (start : @Vector3 real_arith) (dir : @Vector2 real_arith) (p1 p2 : Z) (t v : R) :
  meets_edge vertices start dir p1 p2 t v
  <-> edge_accepted vertices start dir p1 p2 = true
      /\ t = edge_t vertices start dir p1 p2
      /\ v = edge_t2 vertices start dir p1 p2.
Proof.
  rewrite edge_accepted_real. unfold meets_edge, solves_system.
  destruct (edge_parameters_solve_system vertices start dir p1 p2) as [Hdet Hsol].
  cbv zeta in Hdet, Hsol.
  assert (determinant vertices dir p1 p2 <> 0%R <-> edge_div vertices dir p1 p2 <> 0%R)
    as Hne.
  { unfold determinant. rewrite Hdet. real_ops. split; intros H E; apply H; lra. }
  split.
  - intros (Hd & Hs & Ht & Hv). apply Hne in Hd.
    apply (Hsol Hd) in Hs as [-> ->]. repeat split; tauto.
  - intros ((Hd & Ht & Hv) & -> & ->).
    split; [now apply Hne|]. split; [now apply (Hsol Hd)|]. split; assumption.
Qed.

Lemma misses_edge_rejected (vertices : Z -> @Vector3 real_arith)
    (start : @Vector3 real_arith) (dir : @Vector2 real_arith) (p1 p2 : Z) :
  (~ exists t v : R, meets_edge vertices start dir p1 p2 t v)
  <-> edge_accepted vertices start dir p1 p2 = false.
Proof.
  split.
  - intros Hno. destruct (edge_accepted vertices start dir p1 p2) eqn:E; [|reflexivity].
    exfalso. apply Hno. eexists _, _. apply meets_edge_accepted. now repeat split.
  - intros Hrej (t & v & H). apply meets_edge_accepted in H as (H & _). congruence.
Qed.

(** What [calculateIntersection] and the first loop of [createAmbientShadow]
    report for the first accepted edge. *)
Lemma first_accepted_edge_reported {A : Arith}
    (vertices : Z -> Vector3) (vertexCount : Z) (start : Vector3) (dir : Vector2)
    (out : Hit) (p2 : Z) :
  0 <= p2 < vertexCount ->
  (forall j, 0 <= j < p2 ->
     edge_accepted vertices start dir (edge_from vertexCount j) j = false) ->
  edge_accepted vertices start dir (edge_from vertexCount p2) p2 = true ->
  let p1 := edge_from vertexCount p2 in
  let t := edge_t vertices start dir p1 p2 in
  let t2 := edge_t2 vertices start dir p1 p2 in
  calculateIntersection vertices start dir vertexCount out
  = {| outEdgeIndex := p1; outEdgeFraction := t; outRayDist := t2 |}
  /\ p2 = (p1 + 1) mod vertexCount
  /\ forall (rays : Z) (ind : Indeterminate) (i : Z),
       0 <= i < rays ->
       dirs rays ind i = dir ->
       rayDist rays ind vertices vertexCount start i = t2
       /\ rayHeight rays ind vertices vertexCount start i
          = (v3_z (vertices p1) + t * (v3_z (vertices p2) - v3_z (vertices p1)))%flt.
Proof.
  intros Hp2 Hno Hyes p1 t t2.
  pose proof (edge_from_range vertexCount p2 Hp2) as Hp1. fold p1 in Hp1.
  assert (forall o, calculateIntersection vertices start dir vertexCount o
                    = {| outEdgeIndex := p1; outEdgeFraction := t; outRayDist := t2 |})
    as Hhit by (intros o; now apply calculateIntersection_first_hit).
  split; [apply Hhit|]. split.
  - rewrite <- (edge_from_next vertexCount p2 Hp2). fold p1.
    rewrite Z.rem_mod_nonneg by lia. reflexivity.
  - intros rays ind i Hi Hdir.
    rewrite rayDist_cell, rayHeight_cell by assumption.
    unfold interpolated_height, ray_edge, ray_hit. rewrite Hdir, Hhit.
    cbn [outEdgeIndex outEdgeFraction outRayDist].
    destruct (Z.ltb_spec p1 0), (Z.geb_spec p1 vertexCount); try lia. cbn [orb].
    pose proof (edge_from_next vertexCount p2 Hp2) as Hnext. fold p1 in Hnext.
    rewrite Hnext. split; reflexivity.
Qed.

(** C3, in exact arithmetic and as the code computes.  In exact arithmetic:
    in a polygon of at least three vertices the loop visits the edge from the
    last vertex to the first, then the edges between consecutive vertices;
    for the first edge [p1 -> p2], in that order, that the ray meets (the
    determinant of [start + v * dir = p1 + t * (p2 - p1)] is not zero, and
    its solution has [t] in (0, 1] and [v > 0]), [calculateIntersection]
    reports [p1], [t] and [v]; [p2] is the vertex after [p1] modulo
    [vertexCount], and for a ray of [createAmbientShadow] with that hit the
    ray distance is [v] and the height is [h(p1) + t * (h(p2) - h(p1))].  In
    every arithmetic, binary32 included, the same holds of the first edge
    that passes the tests of lines 197-204 on the computed quotients [t] and
    [t2]. *)
Theorem calculateIntersection_first_edge_met :
  (forall (vertices : Z -> @Vector3 real_arith) (vertexCount : Z)
          (start : @Vector3 real_arith) (dir : @Vector2 real_arith)
          (out : @Hit real_arith) (p2 : Z) (t v : R),
     3 <= vertexCount ->
     0 <= p2 < vertexCount ->
     (forall j, 0 <= j < p2 ->
        ~ exists t' v' : R,
            meets_edge vertices start dir (if j =? 0 then vertexCount - 1 else j - 1) j t' v') ->
     let p1 := if p2 =? 0 then vertexCount - 1 else p2 - 1 in
     meets_edge vertices start dir p1 p2 t v ->
     calculateIntersection vertices start dir vertexCount out
     = mkHit (A := real_arith) p1 t v
     /\ p2 = (p1 + 1) mod vertexCount
     /\ forall (rays : Z) (ind : @Indeterminate real_arith) (i : Z),
          0 <= i < rays ->
          dirs rays ind i = dir ->
          rayDist rays ind vertices vertexCount start i = v
          /\ rayHeight rays ind vertices vertexCount start i
             = (v3_z (vertices p1) + t * (v3_z (vertices p2) - v3_z (vertices p1)))%R)
  /\ (forall (A : Arith) (vertices : Z -> Vector3) (vertexCount : Z) (start : Vector3)
             (dir : Vector2) (out : Hit) (p2 : Z) (t t2 : float),
        3 <= vertexCount ->
        0 <= p2 < vertexCount ->
        (forall j, 0 <= j < p2 ->
           ~ exists t' t2' : float,
               passes_tests vertices start dir (if j =? 0 then vertexCount - 1 else j - 1) j
                 t' t2') ->
        let p1 := if p2 =? 0 then vertexCount - 1 else p2 - 1 in
        passes_tests vertices start dir p1 p2 t t2 ->
        calculateIntersection vertices start dir vertexCount out
        = {| outEdgeIndex := p1; outEdgeFraction := t; outRayDist := t2 |}
        /\ p2 = (p1 + 1) mod vertexCount
        /\ forall (rays : Z) (ind : Indeterminate) (i : Z),
             0 <= i < rays ->
             dirs rays ind i = dir ->
             rayDist rays ind vertices vertexCount start i = t2
             /\ rayHeight rays ind vertices vertexCount start i
                = (v3_z (vertices p1) + t * (v3_z (vertices p2) - v3_z (vertices p1)))%flt).
Proof.
  split.
  - intros vertices vertexCount start dir out p2 t v Hn Hp2 Hno p1 Hyes.
    change p1 with (edge_from vertexCount p2) in *.
    apply meets_edge_accepted in Hyes as (Hacc & -> & ->).
    refine (first_accepted_edge_reported (A := real_arith) vertices vertexCount start dir
              out p2 Hp2 _ Hacc).
    intros j Hj. apply misses_edge_rejected. now apply Hno.
  - intros A vertices vertexCount start dir out p2 t t2 Hn Hp2 Hno p1 Hyes.
    change p1 with (edge_from vertexCount p2) in *.
    apply passes_tests_accepted in Hyes as (Hacc & -> & ->).
    refine (first_accepted_edge_reported vertices vertexCount start dir out p2 Hp2 _ Hacc).
    intros j Hj. apply fails_tests_rejected. now apply Hno.
Qed.

(** ** An edge met at its end point *)

(** The first edge that the loop visits for [Rounding.quad], from corner 3
    to corner 0, meets the diagonal ray from the origin at [t = 1],
    [v = 2]. *)
Lemma diagonal_meets_corner :
  meets_edge (fun k => Rounding.exact3 (Rounding.quad k))
    (Rounding.exact3 Rounding.origin) (Rounding.exact2 Rounding.diagonal) 3 0 1 2.
Proof.
  unfold meets_edge, solves_system, determinant, Rounding.exact3, Rounding.exact2.
  cbn [v3_x v3_y v3_z v2_x v2_y]. b2r.
  split; [intros H; lra|]. split; [split; lra|]. split; lra.
Qed.

(** C3, as stated, fails in binary32.  The diagonal ray from the origin
    passes through the corner (1.41421354, 1.41421354) of [Rounding.quad] at
    distance 2: the first edge visited, 3 -> 0, has a non-zero determinant and
    the solution [t = 1], [v = 2], and the code run in exact arithmetic on
    these inputs reports edge 3, fraction 1 and distance 2.  In binary32 the
    quotient [t] of that edge is 1 + 2^-23, the test [t <= 1] fails, no other
    edge passes, and the three outputs keep the values they had. *)
Lemma binary32_misses_edge_met_at_corner :
  meets_edge (fun k => Rounding.exact3 (Rounding.quad k))
    (Rounding.exact3 Rounding.origin) (Rounding.exact2 Rounding.diagonal) 3 0 1 2
  /\ calculateIntersection (A := real_arith) (fun k => Rounding.exact3 (Rounding.quad k))
       (Rounding.exact3 Rounding.origin) (Rounding.exact2 Rounding.diagonal) 4
       MoreSamples.rstale
     = mkHit (A := real_arith) 3 1%R 2%R
  /\ edge_t Rounding.quad Rounding.origin Rounding.diagonal 3 0
     = S754_finite false 8388609 (-23)
  /\ (forall p2, 0 <= p2 < 4 ->
        edge_accepted Rounding.quad Rounding.origin Rounding.diagonal (edge_from 4 p2) p2
        = false)
  /\ calculateIntersection Rounding.quad Rounding.origin Rounding.diagonal 4 Sample.stale
     = Sample.stale.
Proof.
  assert (forall p2, 0 <= p2 < 4 ->
            edge_accepted Rounding.quad Rounding.origin Rounding.diagonal (edge_from 4 p2) p2
            = false) as Hno.
  { intros p2 Hp2.
    assert (p2 = 0 \/ p2 = 1 \/ p2 = 2 \/ p2 = 3) as [->|[->|[->| ->]]] by lia;
      vm_compute; reflexivity. }
  split; [exact diagonal_meets_corner|]. split.
  - destruct (proj1 (meets_edge_accepted _ _ _ _ _ _ _) diagonal_meets_corner)
      as (Hacc & Ht & Hv).
    rewrite (proj1 (first_accepted_edge_reported (A := real_arith) _ 4 _ _
                      MoreSamples.rstale 0 ltac:(lia) ltac:(intros; lia) Hacc)).
    change (edge_from 4 0) with 3. now rewrite <- Ht, <- Hv.
  - split; [vm_compute; reflexivity|]. split; [exact Hno|].
    now apply calculateIntersection_no_hit.
Qed.

(** The ray that points up from the centre of the square meets none of the
    three edges visited before the top edge, and meets the top edge, 2 -> 3,
    at [t = 1/2], [v = 1]. *)
Lemma rsquare_first_edge_met :
  (forall j, 0 <= j < 3 ->
     ~ exists t' v' : R,
         meets_edge MoreSamples.rsquare MoreSamples.rcentre MoreSamples.rup
           (if j =? 0 then 4 - 1 else j - 1) j t' v')
  /\ meets_edge MoreSamples.rsquare MoreSamples.rcentre MoreSamples.rup 2 3 (1 / 2) 1.
Proof.
  split.
  - intros j Hj (t' & v' & Hdet & [Hx Hy] & Ht & Hv). revert Hdet Hx Hy.
    unfold determinant.
    assert (j = 0 \/ j = 1 \/ j = 2) as [->|[->| ->]] by lia.
    + change (if 0 =? 0 then 4 - 1 else 0 - 1) with 3.
      change (MoreSamples.rsquare 3) with (MoreSamples.rvec3 (-1) 1 12).
      change (MoreSamples.rsquare 0) with (MoreSamples.rvec3 (-1) (-1) 0).
      cbn [MoreSamples.rcentre MoreSamples.rup MoreSamples.rvec3 MoreSamples.rvec2
           v3_x v3_y v3_z v2_x v2_y]. intros; lra.
    + change (if 1 =? 0 then 4 - 1 else 1 - 1) with 0.
      change (MoreSamples.rsquare 0) with (MoreSamples.rvec3 (-1) (-1) 0).
      change (MoreSamples.rsquare 1) with (MoreSamples.rvec3 1 (-1) 4).
      cbn [MoreSamples.rcentre MoreSamples.rup MoreSamples.rvec3 MoreSamples.rvec2
           v3_x v3_y v3_z v2_x v2_y]. intros; lra.
    + change (if 2 =? 0 then 4 - 1 else 2 - 1) with 1.
      change (MoreSamples.rsquare 1) with (MoreSamples.rvec3 1 (-1) 4).
      change (MoreSamples.rsquare 2) with (MoreSamples.rvec3 1 1 8).
      cbn [MoreSamples.rcentre MoreSamples.rup MoreSamples.rvec3 MoreSamples.rvec2
           v3_x v3_y v3_z v2_x v2_y]. intros; lra.
  - unfold meets_edge, solves_system, determinant.
    change (MoreSamples.rsquare 2) with (MoreSamples.rvec3 1 1 8).
    change (MoreSamples.rsquare 3) with (MoreSamples.rvec3 (-1) 1 12).
    cbn [MoreSamples.rcentre MoreSamples.rup MoreSamples.rvec3 MoreSamples.rvec2
         v3_x v3_y v3_z v2_x v2_y].
    split; [intros H; lra|]. split; [split; lra|]. split; lra.
Qed.

Lemma calculateIntersection_first_edge_met_witness :
  (3 <= 4 /\ 0 <= 3 < 4
   /\ (forall j, 0 <= j < 3 ->
         ~ exists t' v' : R,
             meets_edge MoreSamples.rsquare MoreSamples.rcentre MoreSamples.rup
               (if j =? 0 then 4 - 1 else j - 1) j t' v')
   /\ meets_edge MoreSamples.rsquare MoreSamples.rcentre MoreSamples.rup 2 3 (1 / 2) 1)
  /\ calculateIntersection MoreSamples.rsquare MoreSamples.rcentre MoreSamples.rup 4
       MoreSamples.rstale
     = mkHit (A := real_arith) 2 (1 / 2)%R 1%R
  /\ (3 <= 4 /\ 0 <= 3 < 4
      /\ (forall j, 0 <= j < 3 ->
            ~ exists t' t2' : @float Sample.arith,
                passes_tests Sample.square Sample.centre Sample.up
                  (if j =? 0 then 4 - 1 else j - 1) j t' t2')
      /\ passes_tests Sample.square Sample.centre Sample.up 2 3
           (SFdiv 24 128 (b32_of_Z 1) (b32_of_Z 2)) (b32_of_Z 1))
  /\ calculateIntersection Sample.square Sample.centre Sample.up 4 Sample.stale
     = mkHit (A := Sample.arith) 2 (SFdiv 24 128 (b32_of_Z 1) (b32_of_Z 2)) (b32_of_Z 1)
  /\ rayHeight 1 Sample.ind Sample.square 4 Sample.centre 0 = Sample.f32 10.
Proof.
  destruct rsquare_first_edge_met as [Hmiss Hmeet].
  assert (forall j, 0 <= j < 3 ->
            ~ exists t' t2' : @float Sample.arith,
                passes_tests Sample.square Sample.centre Sample.up
                  (if j =? 0 then 4 - 1 else j - 1) j t' t2') as Hfail.
  { intros j Hj. apply fails_tests_rejected.
    assert (j = 0 \/ j = 1 \/ j = 2) as [->|[->| ->]] by lia; vm_compute; reflexivity. }
  assert (passes_tests Sample.square Sample.centre Sample.up 2 3
            (SFdiv 24 128 (b32_of_Z 1) (b32_of_Z 2)) (b32_of_Z 1)) as Hpass.
  { apply passes_tests_accepted. repeat split; vm_compute; reflexivity. }
  split; [split; [lia|split; [lia|split; [exact Hmiss|exact Hmeet]]]|].
  split.
  { exact (proj1 (proj1 calculateIntersection_first_edge_met MoreSamples.rsquare 4
                    MoreSamples.rcentre MoreSamples.rup MoreSamples.rstale 3 (1 / 2)%R 1%R
                    ltac:(lia) ltac:(lia) Hmiss Hmeet)). }
  split; [split; [lia|split; [lia|split; [exact Hfail|exact Hpass]]]|].
  destruct (proj2 calculateIntersection_first_edge_met Sample.arith Sample.square 4
              Sample.centre Sample.up Sample.stale 3 _ _ ltac:(lia) ltac:(lia) Hfail Hpass)
    as (Hhit & _ & Hray).
  split; [exact Hhit|].
  destruct (Hray 1 Sample.ind 0 ltac:(lia) eq_refl) as [_ Hh].
  rewrite Hh. vm_compute. reflexivity.
Defined.

(** ** The normal, written out *)

(** [calculateNormal] in terms of the two coordinates of the chord. *)
Lemma calculateNormal_rotated {A : Arith} (rays i : Z) (dir : Z -> Vector2)
    (rayDist : Z -> float) (normal : Vector2) :
  0 <= i < rays ->
  let pre := (i - 1) mod rays in
  let post := (i + 1) mod rays in
  let cx := (v2_x (dir post) * rayDist post - v2_x (dir pre) * rayDist pre)%flt in
  let cy := (v2_y (dir post) * rayDist post - v2_y (dir pre) * rayDist pre)%flt in
  calculateNormal rays i dir rayDist normal = rotated_unit_chord cx cy normal.
Proof.
  intros Hi pre post cx cy. rewrite calculateNormal_cases by exact Hi. reflexivity.
Qed.

(** In exact arithmetic the turned unit chord is kept at the fallback for
    the zero chord, and is otherwise the chord turned by
    [(x, y) -> (-y, x)] and divided by its length: a vector of length 1,
    perpendicular to the chord. *)
Lemma rotated_unit_chord_real (cx cy : R) (fallback : @Vector2 real_arith) :
  let n := rotated_unit_chord (A := real_arith) cx cy fallback in
  (cx = 0%R /\ cy = 0%R -> n = fallback)
  /\ (cx <> 0%R \/ cy <> 0%R ->
      n = mkVector2 (A := real_arith)
            (- cy / sqrt (cx * cx + cy * cy))%R (cx / sqrt (cx * cx + cy * cy))%R
      /\ (v2_x n * v2_x n + v2_y n * v2_y n = 1)%R
      /\ (v2_x n * cx + v2_y n * cy = 0)%R).
Proof.
  intros n. unfold n, rotated_unit_chord. real_ops.
  pose proof (Rle_0_sqr cx) as Hx. pose proof (Rle_0_sqr cy) as Hy. unfold Rsqr in Hx, Hy.
  split.
  - intros [-> ->]. replace (0 * 0 + 0 * 0)%R with 0%R by ring. rewrite sqrt_0.
    now rewrite (proj2 (Rneb_false 0 0) eq_refl).
  - intros Hne.
    assert (0 < cx * cx + cy * cy)%R as Hpos by (destruct Hne; nra).
    set (len := sqrt (cx * cx + cy * cy)).
    assert (0 < len)%R as Hlen by (now apply sqrt_lt_R0).
    assert (len * len = cx * cx + cy * cy)%R as Hsq by (apply sqrt_sqrt; lra).
    rewrite (proj2 (Rneb_true len 0)) by lra. cbn [v2_x v2_y].
    split; [apply vector2_eq; cbn [v2_x v2_y]; real_ops; field; lra|]. split.
    + transitivity ((cx * cx + cy * cy) / (len * len))%R; [field; lra|].
      rewrite <- Hsq. field. lra.
    + field. lra.
Qed.


(** ** The two rings *)




(** ** The normal of a ray *)

(** C6, in exact arithmetic and as the code computes.  In exact arithmetic,
    for a ray [i], with the intersection points [origin + dir * rayDist] of
    the rays [(i - 1) mod rays] and [(i + 1) mod rays] and the chord from the
    first to the second: when the chord is zero [calculateNormal] returns
    the normal it was given; otherwise it returns the chord divided by its
    length and turned by [(x, y) -> (-y, x)], a vector of length 1
    perpendicular to the chord.  In every arithmetic, binary32 included, it
    computes the chord between the points [dir * rayDist], its length
    [sqrtf(cx * cx + cy * cy)], and returns the given normal when that
    computed length is zero and the chord scaled by the inverse of the
    computed length, turned, otherwise.  In [createAmbientShadow] the given
    normal is (1, 0), and when the computed length is zero the cell [i] of
    the buffer is stored all the same: the intersection point moved along
    (1, 0). *)
Theorem calculateNormal_left_unit_normal (rays i : Z) :
  0 <= i < rays ->
  let pre := (i - 1) mod rays in
  let post := (i + 1) mod rays in
  (forall (dir : Z -> @Vector2 real_arith) (rayDist : Z -> R)
          (origin normal : @Vector2 real_arith),
     let Qx := fun k : Z => (v2_x origin + v2_x (dir k) * rayDist k)%R in
     let Qy := fun k : Z => (v2_y origin + v2_y (dir k) * rayDist k)%R in
     let cx := (Qx post - Qx pre)%R in
     let cy := (Qy post - Qy pre)%R in
     let n := calculateNormal rays i dir rayDist normal in
     (cx = 0%R /\ cy = 0%R -> n = normal)
     /\ (cx <> 0%R \/ cy <> 0%R ->
         n = mkVector2 (A := real_arith)
               (- cy / sqrt (cx * cx + cy * cy))%R (cx / sqrt (cx * cx + cy * cy))%R
         /\ (v2_x n * v2_x n + v2_y n * v2_y n = 1)%R
         /\ (v2_x n * cx + v2_y n * cy = 0)%R))
  /\ (forall (A : Arith) (dir : Z -> Vector2) (rayDist : Z -> float) (normal : Vector2),
        let cx := (v2_x (dir post) * rayDist post - v2_x (dir pre) * rayDist pre)%flt in
        let cy := (v2_y (dir post) * rayDist post - v2_y (dir pre) * rayDist pre)%flt in
        let len := sqrtf (cx * cx + cy * cy)%flt in
        calculateNormal rays i dir rayDist normal
        = if (len !=? #0)%flt
          then {| v2_x := (- (cy * (#1 / len)))%flt; v2_y := (cx * (#1 / len))%flt |}
          else normal)
  /\ (forall (A : Arith) (L : ArithLaws A) (capacity : Z) (ind : Indeterminate)
             (vertices : Z -> Vector3) (vertexCount : Z) (centroid3d : Vector3)
             (heightFactor geomFactor : float) (isCasterOpaque : bool)
             (buf0 : VertexBuffer),
        3 <= vertexCount ->
        (heightFactor >? #0)%flt = true ->
        (geomFactor >? #0)%flt = true ->
        (if isCasterOpaque then 2 else 3) * rays <= capacity ->
        exists (mode : VertexBufferMode) (buf : VertexBuffer),
          createAmbientShadow rays capacity ind vertices vertexCount centroid3d
            heightFactor geomFactor isCasterOpaque buf0 = Some (mode, buf)
          /\ let dir := dirs rays ind in
             let dist := rayDist rays ind vertices vertexCount centroid3d in
             let height := rayHeight rays ind vertices vertexCount centroid3d in
             let cx := (v2_x (dir post) * dist post - v2_x (dir pre) * dist pre)%flt in
             let cy := (v2_y (dir post) * dist post - v2_y (dir pre) * dist pre)%flt in
             (sqrtf (cx * cx + cy * cy) !=? #0)%flt = false ->
             shadowVertex buf i
             = Some {| av_x := (v2_x (dir i) * dist i + v3_x centroid3d
                                + #1 * (height i * heightFactor * geomFactor))%flt;
                       av_y := (v2_y (dir i) * dist i + v3_y centroid3d
                                + #0 * (height i * heightFactor * geomFactor))%flt;
                       av_alpha := (#0)%flt |}).
Proof.
  intros Hi pre post. split; [|split].
  - intros dir rayDist origin normal Qx Qy cx cy n.
    assert (n = rotated_unit_chord (A := real_arith) cx cy normal) as ->.
    { unfold n. rewrite calculateNormal_rotated by exact Hi. cbv zeta. fold pre post.
      f_equal; unfold cx, cy, Qx, Qy; real_ops; ring. }
    apply rotated_unit_chord_real.
  - intros A dir rayDist normal cx cy len.
    rewrite calculateNormal_rotated by exact Hi. reflexivity.
  - intros A L capacity ind vertices vertexCount centroid3d heightFactor geomFactor
      isCasterOpaque buf0 Hv Hh Hg Hcap.
    destruct (createAmbientShadow_cells rays capacity ind vertices vertexCount centroid3d
                heightFactor geomFactor isCasterOpaque buf0)
      as (buf & E & Hlen & Hcells); [apply valid_input_passes; first [assumption | lia]
                                    |exact Hcap|].
    eexists _, buf. split; [exact E|]. cbv zeta. intros Hzero.
    rewrite Hcells, bool_decide_eq_true_2 by lia.
    unfold outer_vertex, normal_at. rewrite calculateNormal_rotated by exact Hi. cbv zeta.
    fold pre post. unfold rotated_unit_chord. rewrite Hzero.
    unfold intersection_at, v2_add, v2_scale, centroid2d. cbn [v2_x v2_y]. reflexivity.
Qed.

Lemma sqrt_of_square (c : R) : (0 < c)%R -> sqrt (c * c + 0 * 0) = c.
Proof.
  intros Hc. replace (c * c + 0 * 0)%R with (Rsqr c) by (unfold Rsqr; ring).
  apply sqrt_Rsqr. lra.
Qed.

(** Ray 0 of four rays of length 1 that point up, right, down and left, from
    the origin (3, 5): the chord goes from (2, 5) to (4, 5), the normal is
    (0, 1) in exact arithmetic and (-0, 1) in binary32.  The run on the square
    with one ray has the zero chord. *)
Lemma calculateNormal_left_unit_normal_witness :
  0 <= 0 < 4
  /\ calculateNormal (A := real_arith) 4 0 MoreSamples.four_rays (fun _ => 1%R)
       (MoreSamples.rvec2 1 0) = MoreSamples.rvec2 0 1
  /\ calculateNormal (A := Sample.arith) 4 0 Rounding.four_rays (fun _ => Sample.f32 1)
       (Sample.vec2 1 0)
     = mkVector2 (A := Sample.arith) (S754_zero true) (Sample.f32 1)
  /\ exists (mode : VertexBufferMode) (buf : VertexBuffer),
       createAmbientShadow (A := Sample.arith) 1 3 Sample.ind Sample.square 4 Sample.centre
         (Sample.f32 1) (Sample.f32 1) true [] = Some (mode, buf)
       /\ shadowVertex buf 0
          = Some {| av_x := Sample.f32 10; av_y := Sample.f32 1; av_alpha := Sample.f32 0 |}.
Proof.
  split; [lia|].
  destruct (calculateNormal_left_unit_normal 4 0 ltac:(lia)) as (Hexact & Hcode & _).
  destruct (calculateNormal_left_unit_normal 1 0 ltac:(lia)) as (_ & _ & Hring).
  split; [|split].
  - destruct (Hexact MoreSamples.four_rays (fun _ => 1%R) (MoreSamples.rvec2 3 5)
                (MoreSamples.rvec2 1 0)) as [_ Hn].
    cbv zeta in Hn.
    change (MoreSamples.four_rays ((0 + 1) mod 4)) with (MoreSamples.rvec2 1 0) in Hn.
    change (MoreSamples.four_rays ((0 - 1) mod 4)) with (MoreSamples.rvec2 (-1) 0) in Hn.
    cbn [MoreSamples.rvec2 v2_x v2_y] in Hn.
    destruct Hn as (-> & _); [left; lra|].
    replace (3 + 1 * 1 - (3 + -1 * 1))%R with 2%R by ring.
    replace (5 + 0 * 1 - (5 + 0 * 1))%R with 0%R by ring.
    rewrite sqrt_of_square by lra.
    apply vector2_eq; cbn [MoreSamples.rvec2 v2_x v2_y]; real_ops; field.
  - rewrite (Hcode Sample.arith). apply vector2_eq; vm_compute; reflexivity.
  - destruct (Hring Sample.arith sample_laws 3 Sample.ind Sample.square 4 Sample.centre
                (Sample.f32 1) (Sample.f32 1) true []
                ltac:(lia) eq_refl eq_refl ltac:(cbn iota; lia))
      as (mode & buf & E & Hcell).
    exists mode, buf. split; [exact E|].
    rewrite (Hcell eq_refl). apply f_equal, alphaVertex_eq; vm_compute; reflexivity.
Defined.

(** C6, as stated, fails in binary32, both ways.  Four rays that point up,
    right, down and left, each of length 2^-100: for ray 0 the chord from the
    point of ray 3 to the point of ray 1 is (2^-99, 0), which is not zero; its
    square underflows, the computed length is 0, and [calculateNormal]
    returns the normal (1, 0) it was given, where the chord turned by
    [(x, y) -> (-y, x)] and scaled to length 1 is (0, 1), which the code run
    in exact arithmetic on these inputs returns.  The same four rays with
    length 1 from the centroid (2^25, 2^25): the intersection points of the
    rays 3 and 1, as the code computes them, are both (2^25, 2^25), so the
    chord between them is zero; [calculateNormal] takes the chord between the
    points [dir * rayDist], which is (2, 0), and returns the computed normal
    (-0, 1), not the normal (1, 0) it was given. *)
Lemma binary32_keeps_normal_for_nonzero_chord :
  (0 < B2R (v2_x (v2_sub (v2_scale (Rounding.four_rays 1) Rounding.tiny)
                         (v2_scale (Rounding.four_rays 3) Rounding.tiny))))%R
  /\ calculateNormal (A := Sample.arith) 4 0 Rounding.four_rays (fun _ => Rounding.tiny)
       (Sample.vec2 1 0)
     = Sample.vec2 1 0
  /\ calculateNormal (A := real_arith) 4 0 (fun k => Rounding.exact2 (Rounding.four_rays k))
       (fun _ => B2R Rounding.tiny) (MoreSamples.rvec2 1 0)
     = MoreSamples.rvec2 0 1
  /\ v2_add (v2_scale (Rounding.four_rays 1) (Sample.f32 1)) Rounding.far = Rounding.far
  /\ v2_add (v2_scale (Rounding.four_rays 3) (Sample.f32 1)) Rounding.far = Rounding.far
  /\ calculateNormal (A := Sample.arith) 4 0 Rounding.four_rays (fun _ => Sample.f32 1)
       (Sample.vec2 1 0)
     = mkVector2 (A := Sample.arith) (S754_zero true) (Sample.f32 1).
Proof.
  split; [|split; [|split; [|split; [|split]]]].
  - b2r. lra.
  - apply vector2_eq; vm_compute; reflexivity.
  - rewrite calculateNormal_rotated by lia. cbv zeta.
    change ((0 + 1) mod 4) with 1. change ((0 - 1) mod 4) with 3.
    unfold Rounding.exact2. cbn [v2_x v2_y].
    assert (0 < B2R Rounding.tiny)%R as Htiny by (b2r; lra).
    set (tau := B2R Rounding.tiny) in *.
    replace (B2R (v2_x (Rounding.four_rays 1))) with 1%R by (b2r; lra).
    replace (B2R (v2_y (Rounding.four_rays 1))) with 0%R by (b2r; lra).
    replace (B2R (v2_x (Rounding.four_rays 3))) with (-1)%R by (b2r; lra).
    replace (B2R (v2_y (Rounding.four_rays 3))) with 0%R by (b2r; lra).
    destruct (rotated_unit_chord_real (1 * tau - -1 * tau) (0 * tau - 0 * tau)
                (MoreSamples.rvec2 1 0)) as [_ Hn].
    cbv zeta in Hn. real_ops. destruct Hn as (-> & _); [left; lra|].
    replace (1 * tau - -1 * tau)%R with (2 * tau)%R by ring.
    replace (0 * tau - 0 * tau)%R with 0%R by ring.
    rewrite sqrt_of_square by lra.
    apply vector2_eq; cbn [MoreSamples.rvec2 v2_x v2_y]; real_ops; field; lra.
  - apply vector2_eq; vm_compute; reflexivity.
  - apply vector2_eq; vm_compute; reflexivity.
  - apply vector2_eq; vm_compute; reflexivity.
Qed.

(** ** Directions that binary32 cannot hold *)

(** Twice a square is no power of 4. *)
Lemma twice_square_not_power_of_4 (n : nat) (z : Z) :
  2 * (z * z) <> 2 ^ Z.of_nat n * 2 ^ Z.of_nat n.
Proof.
  revert z. induction n as [|n IH]; intros z H.
  - change (2 ^ Z.of_nat 0) with 1 in H. lia.
  - rewrite Nat2Z.inj_succ, Z.pow_succ_r in H by lia.
    set (p := 2 ^ Z.of_nat n) in *.
    destruct (Z.Even_or_Odd z) as [[w ->]|[w ->]].
    + apply (IH w). fold p. lia.
    + lia.
Qed.

(** No binary32 number has the value [1 / sqrt 2]. *)
Lemma B2R_not_inv_sqrt2 (x : spec_float) : B2R x <> (1 / sqrt 2)%R.
Proof.
  intros H.
  assert (2 * (B2R x * B2R x) = 1)%R as Hsq.
  { rewrite H. pose proof (sqrt_sqrt 2 ltac:(lra)) as Hs.
    assert (sqrt 2 <> 0)%R as Hne by (intros E; rewrite E in Hs; lra).
    transitivity (2 / (sqrt 2 * sqrt 2))%R; [field; exact Hne|]. rewrite Hs. field. }
  clear H. destruct x as [s|s| |s m e]; cbn [B2R] in Hsq; try lra.
  cbv zeta in Hsq. set (z := if s then Z.neg m else Z.pos m) in *.
  destruct (Z.leb_spec 0 e) as [He|He].
  - rewrite <- mult_IZR, <- (mult_IZR 2) in Hsq. apply eq_IZR in Hsq. lia.
  - assert (0 < 2 ^ (- e)) as Hpos by (apply Z.pow_pos_nonneg; lia).
    assert (IZR (2 ^ (- e)) <> 0%R) as Hne by (apply not_0_IZR; lia).
    assert (2 * (IZR z * IZR z) = IZR (2 ^ (- e)) * IZR (2 ^ (- e)))%R as Hz.
    { transitivity ((2 * (IZR z / IZR (2 ^ (- e)) * (IZR z / IZR (2 ^ (- e)))))
                    * (IZR (2 ^ (- e)) * IZR (2 ^ (- e))))%R; [field; exact Hne|].
      rewrite Hsq. ring. }
    rewrite <- !mult_IZR in Hz. apply eq_IZR in Hz.
    apply (twice_square_not_power_of_4 (Z.to_nat (- e)) z).
    rewrite Z2Nat.id by lia. exact Hz.
Qed.

(** C7, as stated, fails in binary32, whatever [sinf] and [cosf] return.
    With eight rays the claim gives ray 1 the x coordinate
    [sin (2 pi / 8) = 1 / sqrt 2], which no binary32 number equals.  With
    seven rays the arguments passed to [sinf] and [cosf] for the rays 1, 2
    and 3 are 15059194 * 2^-24, 15059194 * 2^-23 and 11294396 * 2^-22: the
    step from ray 1 to ray 2 is 15059194 * 2^-24 and the step from ray 2 to
    ray 3 is 15059196 * 2^-24, so the angles of consecutive rays do not differ
    by one and the same amount. *)
Lemma binary32_directions_are_not_exact :
  ~ (exists libm_sinf libm_cosf : spec_float -> spec_float,
       B2R (v2_x (calculateRayDirections (A := binary32_arith libm_sinf libm_cosf) 8
                    (fun _ => mkVector2 (A := binary32_arith libm_sinf libm_cosf)
                                (S754_zero false) (S754_zero false)) 1))
       = sin (2 * PI * 1 / 8))
  /\ (deltaAngle (A := Sample.arith) 7 * #2 - deltaAngle (A := Sample.arith) 7 * #1)%flt
     = S754_finite false 15059194 (-24)
  /\ (deltaAngle (A := Sample.arith) 7 * #3 - deltaAngle (A := Sample.arith) 7 * #2)%flt
     = S754_finite false 15059196 (-24).
Proof.
  split; [|split; vm_compute; reflexivity].
  intros (libm_sinf & libm_cosf & H).
  replace (2 * PI * 1 / 8)%R with (PI / 4)%R in H by field.
  rewrite sin_PI4 in H. exact (B2R_not_inv_sqrt2 _ H).
Qed.
